(** * eorsky.visibility: visibilities of a HEALPix shell

    A shallow embedding of [src/eorsky/visibility.py] and the properties
    its specification states about it.

    Conventions of the embedding.
    - A float64 value is a real number ([R]); a complex128 value is a pair
      of reals ([complex]).  Rounding, overflow and the non-finite values
      of IEEE arithmetic are outside the model; a statement whose truth
      depends on the value of a quotient carries the hypothesis that the
      divisor is not zero, and a divisor the source can compute to zero is
      a definition of its own so that it can be examined.  For the beam,
      [beam_val_float] keeps what float64 division gives by a divisor
      that is exactly zero.
    - A one-dimensional ndarray is a [list]; a two-dimensional one is a
      list of rows (first axis outermost).  Where the source combines
      arrays whose lengths can differ, numpy's broadcasting and its
      [ValueError] are written out ([np_subtract], [make_fringe_call]).
    - ndarray objects that a caller shares with a callee live in a [heap]
      ([gmap] from object identities to contents), so that in-place
      updates and aliasing are visible.
    - The worker processes of [make_visibilities] are sequences of queue
      [put]s; a schedule, a list of worker numbers, decides how the
      manager queue interleaves them.
    - healpy's pixelisation ([query_disc], [pix2vec]) and astropy's
      coordinate transformation are parameters ([Healpix], [Astropy]). *)

From Stdlib Require Import Reals Lra Lia List Arith PeanoNat Bool String.
From Stdlib Require Import Permutation Sorted.
From stdpp Require Import gmap.
Import ListNotations.

Local Open Scope R_scope.

(** ** Complex numbers (numpy complex128) *)

Record complex : Type := mkC { Re : R; Im : R }.

Definition RtoC (x : R) : complex := mkC x 0.
Definition C0 : complex := RtoC 0.
(** Python's [1j]. *)
Definition Cj : complex := mkC 0 1.

Definition Cadd (a b : complex) : complex := mkC (Re a + Re b) (Im a + Im b).
Definition Cmul (a b : complex) : complex :=
  mkC (Re a * Re b - Im a * Im b) (Re a * Im b + Im a * Re b).
(** complex / real, as in [visibilities / conv_fact]. *)
Definition Cdiv_R (a : complex) (x : R) : complex := mkC (Re a / x) (Im a / x).

(** ** numpy array helpers *)

Definition Rsum (l : list R) : R := fold_right Rplus 0 l.

(** [np.outer(a, b)]: [out[i][j] = a[i] * b[j]]. *)
Definition outer (a b : list R) : list (list R) :=
  map (fun x => map (fun y => x * y) b) a.

(** [np.vstack] of equally long rows. *)
Definition vstack (rows : list (list R)) : list (list R) := rows.

(** [np.einsum("jk,jl->kl", a, b)]: [out[k][l] = sum_j a[j][k] * b[j][l]]. *)
Definition einsum_jk_jl_kl (a b : list (list R)) : list (list R) :=
  let K := length (hd [] a) in
  let L := length (hd [] b) in
  map (fun k =>
         map (fun l =>
                Rsum (zip_with (fun ra rb => nth k ra 0 * nth l rb 0) a b))
             (seq 0 L))
      (seq 0 K).


(** ** Module constants and [jy2Tstr] *)

(** [c_ms = c.to('m/s').value] *)
Definition c_ms : R := 299792458.

Definition jy2Tstr (f : R) (bm : R) : R :=
  let c_cmps := c_ms * 100 in
  let k_boltz := 1.380658e-16 in
  let lam := c_cmps / f in
  1e-23 * lam ^ 2 / (2 * k_boltz * bm).

(** ** [make_fringe] *)

(** The fringe of [make_fringe] for [az] and [za] of one length and an
    [enu] of three components, where numpy's elementwise products,
    [np.vstack] and [np.einsum] pair the elements up one to one.  What
    numpy does with two arrays of different lengths is in
    [make_fringe_call], below. *)
Definition make_fringe (az za freq enu : list R) : list (list complex) :=
  let pos_l := zip_with Rmult (map sin az) (map sin za) in
  let pos_m := zip_with Rmult (map cos az) (map sin za) in
  let pos_n := map cos za in
  let lmn := vstack [pos_l; pos_m; pos_n] in
  let uvw := outer enu (map (fun f => 1 / (c_ms / f)) freq) in
  let udotl := einsum_jk_jl_kl lmn uvw in
  map (map (fun x => Cadd (RtoC (cos (2 * PI * x)))
                          (Cmul Cj (RtoC (sin (2 * PI * x)))))) udotl.

(** The quantities the specification names: the direction cosines of a
    pixel, the baseline in wavelengths, and their scalar product. *)
Definition direction_cosines (az za : R) : R * R * R :=
  (sin az * sin za, cos az * sin za, cos za).

Definition wavelength (f : R) : R := c_ms / f.

Definition dot3 (u v : R * R * R) : R :=
  let '(u0, u1, u2) := u in
  let '(v0, v1, v2) := v in
  u0 * v0 + u1 * v1 + u2 * v2.

(** ** Exceptions and results *)

Inductive exn : Type :=
| NotImplementedError | KeyError | AttributeError | AssertionError
| ValueError | IndexError | ZeroDivisionError.

(** The result of a call that returns or raises. *)
Inductive result (A : Type) : Type :=
| Ok (a : A)
| Raise (e : exn).
Arguments Ok {A} a.
Arguments Raise {A} e.

(** The result of the controller: it returns, raises, or blocks for ever
    in [Queue.get] on a queue nobody will write to. *)
Inductive outcome (A : Type) : Type :=
| Returned (a : A)
| Raised (e : exn)
| Blocked.
Arguments Returned {A} a.
Arguments Raised {A} e.
Arguments Blocked {A}.

(** ** class [analyticbeam] *)

Inductive analyticbeam : Type :=
| Uniform
| Gaussian (sigma : R).

(** [analyticbeam.__init__(beam_type, sigma=None)] *)
Definition analyticbeam_init (beam_type : string) (sigma : option R)
  : result analyticbeam :=
  if String.eqb beam_type "uniform" then Ok Uniform
  else if String.eqb beam_type "gaussian" then
    match sigma with
    | None => Raise KeyError
    | Some s => Ok (Gaussian (s * PI / 180))
    end
  else Raise NotImplementedError.

(** The divisor [2 * self.sigma**2] of the exponent of the Gaussian beam;
    nothing in the class keeps it from being zero. *)
Definition gaussian_divisor (sigma : R) : R := 2 * sigma ^ 2.

(** [analyticbeam.beam_val(az, za, freq_Hz=None)] on ndarrays. *)
Definition beam_val (b : analyticbeam) (az za : list R) (freq_Hz : option R)
  : list R :=
  match b with
  | Uniform => map (fun _ => 1) az
  | Gaussian sigma => map (fun z => exp (- (z ^ 2) / gaussian_divisor sigma)) za
  end.

(** A float64 result that need not be a real number. *)
Inductive float64 : Type :=
| Real (x : R)
| PosInf
| NegInf
| NaN.

(** The float64 quotient [x / y] of numpy for a divisor [y] that is not
    negative: by a divisor that is exactly zero it is nan for [x = 0],
    and infinite with the sign of [x] otherwise. *)
Definition float_div (x y : R) : float64 :=
  if Req_EM_T y 0 then
    if Req_EM_T x 0 then NaN
    else if Rlt_dec 0 x then PosInf else NegInf
  else Real (x / y).

(** [np.exp] on such a value. *)
Definition float_exp (v : float64) : float64 :=
  match v with
  | Real x => Real (exp x)
  | PosInf => PosInf
  | NegInf => Real 0
  | NaN => NaN
  end.

(** [beam_val] with the quotient of the exponent as float64 arithmetic
    gives it; it is [beam_val] wherever the divisor is not zero (lemma
    [beam_val_float_finite]). *)
Definition beam_val_float (b : analyticbeam) (az za : list R)
    (freq_Hz : option R) : list float64 :=
  match b with
  | Uniform => map (fun _ => Real 1) az
  | Gaussian sigma =>
      map (fun z => float_exp (float_div (- (z ^ 2)) (gaussian_divisor sigma)))
          za
  end.

(** ** class [baseline] *)

Record baseline : Type := { enu : list R }.

(** [a - b] on two 1-D ndarrays: elementwise on arrays of one length; an
    array of one element is broadcast over the other; any other pair of
    lengths raises. *)
Definition np_subtract (a b : list R) : result (list R) :=
  if (length a =? length b)%nat then Ok (zip_with Rminus a b)
  else if (length a =? 1)%nat then Ok (map (fun y => nth 0 a 0 - y) b)
  else if (length b =? 1)%nat then Ok (map (fun x => x - nth 0 b 0) a)
  else Raise ValueError.

(** [baseline.__init__(ant1_enu, ant2_enu)]: the subtraction can raise,
    and so does the assertion on a difference that has not three
    components. *)
Definition baseline_init (ant1_enu ant2_enu : list R) : result baseline :=
  match np_subtract ant1_enu ant2_enu with
  | Raise e => Raise e
  | Ok d =>
      if (length d =? 3)%nat then Ok {| enu := d |} else Raise AssertionError
  end.

Definition get_uvw (bl : baseline) (freq_Hz : R) : list R :=
  map (fun e => e / (c_ms / freq_Hz)) (enu bl).

(** ndarray objects and the heap that holds them. *)
Definition ref : Type := nat.
Definition heap : Type := gmap ref (list R).

(** [a *= k] on the ndarray [a]: the object is updated in place. *)
Definition imul (h : heap) (a : ref) (k : R) : heap :=
  alter (map (fun x => x * k)) a h.

(** The call [make_fringe(az, za, freq, enu)] on 1-D ndarrays [az] and
    [za].  On arrays of one length it returns [make_fringe].  An [az] of
    one element is broadcast over [za] by the two products, so the three
    rows given to [np.vstack] have the length of [za].  Every other pair
    of lengths raises [ValueError], in a product or in [np.vstack] (a
    [za] of one element leaves [pos_n] with one element beside longer
    [pos_l] and [pos_m]). *)
Definition make_fringe_call (az za freq enu : list R)
  : result (list (list complex)) :=
  if (length az =? length za)%nat then Ok (make_fringe az za freq enu)
  else if (length az =? 1)%nat then
    Ok (make_fringe (repeat (nth 0 az 0) (length za)) za freq enu)
  else Raise ValueError.

(** [baseline.get_fringe(az, za, freq_Hz, degrees=False)]; [az] and [za]
    are the caller's ndarray objects.  The arrays are scaled before
    [make_fringe] is called, so the heap of the result holds the scaled
    arrays also when the call raises.  [None] stands for an object that
    is not on the heap. *)
Definition get_fringe (bl : baseline) (az za : ref) (freq_Hz : list R)
    (degrees : bool) (h : heap)
  : option (result (list (list complex)) * heap) :=
  let h1 := if degrees then imul h az (PI / 180) else h in
  let h2 := if degrees then imul h1 za (PI / 180) else h1 in
  match h2 !! az, h2 !! za with
  | Some az_v, Some za_v =>
      Some (make_fringe_call az_v za_v freq_Hz (enu bl), h2)
  | _, _ => None
  end.

(** ** Geometry *)

Definition vec3 : Type := R * R * R.

Definition radians (deg : R) : R := deg * PI / 180.

(** [np.cross] *)
Definition cross (a b : vec3) : vec3 :=
  let '(a0, a1, a2) := a in
  let '(b0, b1, b2) := b in
  (a1 * b2 - a2 * b1, a2 * b0 - a0 * b2, a0 * b1 - a1 * b0).

(** [np.arctan2(y, x)]: the angle of the point [(x, y)] in [(-pi, pi]]. *)
Definition arctan2 (y x : R) : R :=
  if Rlt_dec 0 x then atan (y / x)
  else if Rlt_dec x 0 then
         (if Rle_dec 0 y then atan (y / x) + PI else atan (y / x) - PI)
  else if Rlt_dec 0 y then PI / 2
  else if Rlt_dec y 0 then - PI / 2
  else 0.

(** [a % b] on floats: the remainder has the sign of [b]. *)
Definition np_mod (a b : R) : R := a - b * IZR (Int_part (a / b)).

(** healpy's [ang2vec(lon, lat, lonlat=True)]:
    [theta = pi/2 - radians(lat)], [phi = radians(lon)]. *)
Definition ang2vec (lon lat : R) : vec3 :=
  let theta := PI / 2 - radians lat in
  let phi := radians lon in
  (sin theta * cos phi, sin theta * sin phi, cos theta).

(** healpy's [npix2nside]: raises unless [npix / 12] is a perfect square. *)
Definition npix2nside (npix : nat) : result nat :=
  let nside := Nat.sqrt (npix / 12) in
  if (12 * nside * nside =? npix)%nat then Ok nside else Raise ValueError.

(** The pixelisation itself is healpy's: the pixels of a disc and the
    direction of a pixel are parameters of the development. *)
Class Healpix : Type := {
  query_disc : nat -> vec3 -> R -> list nat;
  pix2vec : nat -> nat -> vec3
}.

(** astropy's transformation of the direction at altitude 89 degrees,
    azimuth 0, at a time and place, to ICRS (ra, dec) in degrees. *)
Class Astropy : Type := {
  altaz_to_icrs : R -> R -> R -> R * R
}.

(** A pixelisation that knows one pixel, pixel 12 of Nside 2, whose
    direction is [(2 sqrt 2 / 3, 0, 1/3)]; it serves as the concrete
    pixelisation of the examples. *)
Definition one_pixel : Healpix :=
  {| query_disc := fun Nside _ _ => if (2 <=? Nside)%nat then [12%nat] else [];
     pix2vec := fun _ _ => (sqrt 8 / 3, 0, 1 / 3) |}.

(** healpy's contract for [query_disc]: the pixels it returns are pixels
    of the sphere of the given resolution. *)
Definition query_disc_in_range (hp : Healpix) : Prop :=
  forall Nside v r p,
    In p (@query_disc hp Nside v r) -> (p < 12 * Nside * Nside)%nat.

(** ** class [observatory] *)

(** [pointing] holds [times_jd] and [pointing_centers], the two
    attributes [set_pointings] creates; [Nfreqs] exists when [freqs] was
    given. *)
Record observatory : Type := {
  lat : R;
  lon : R;
  array : list baseline;
  fov : option R;
  freqs : option (list R);
  pointing : option (list R * list (R * R));
  beam : option analyticbeam
}.

Definition observatory_init (latitude longitude : R) (arr : list baseline)
    (fr : option (list R)) : observatory :=
  {| lat := latitude; lon := longitude; array := arr; fov := None;
     freqs := fr; pointing := None; beam := None |}.

Definition Nfreqs (obs : observatory) : option nat :=
  match freqs obs with
  | Some fr => Some (length fr)
  | None => None
  end.

Definition set_fov (obs : observatory) (f : R) : observatory :=
  {| lat := lat obs; lon := lon obs; array := array obs; fov := Some f;
     freqs := freqs obs; pointing := pointing obs; beam := beam obs |}.

Definition set_beam (obs : observatory) (beam_type : string)
    (sigma : option R) : result observatory :=
  match analyticbeam_init beam_type sigma with
  | Raise e => Raise e
  | Ok b =>
      Ok {| lat := lat obs; lon := lon obs; array := array obs;
            fov := fov obs; freqs := freqs obs; pointing := pointing obs;
            beam := Some b |}
  end.

Definition set_pointings `{Astropy} (obs : observatory) (time_arr : list R)
  : observatory :=
  let centers := map (altaz_to_icrs (lon obs) (lat obs)) time_arr in
  {| lat := lat obs; lon := lon obs; array := array obs; fov := fov obs;
     freqs := freqs obs; pointing := Some (time_arr, centers);
     beam := beam obs |}.

(** *** [calc_azza] *)

(** [colat = np.radians(90. - center[1])] *)
Definition colat (center : R * R) : R := radians (90 - snd center).

(** The divisor of [xvec]: [np.sin(colat)]. *)
Definition xvec_divisor (center : R * R) : R := sin (colat center).

(** [cvec], [xvec] and [yvec] of [calc_azza].  [xvec] is a quotient by
    [xvec_divisor center]: these are the vectors of the code for a centre
    off the poles, where the divisor is not zero. *)
Definition local_frame (center : R * R) : vec3 * vec3 * vec3 :=
  let cvec := ang2vec (fst center) (snd center) in
  let '(c0, c1, c2) := cvec in
  let xvec := (- c1 / xvec_divisor center,
               c0 / xvec_divisor center,
               0 / xvec_divisor center) in
  let yvec := cross cvec xvec in
  (cvec, xvec, yvec).

Definition cvec (center : R * R) : vec3 := fst (fst (local_frame center)).
Definition xvec (center : R * R) : vec3 := snd (fst (local_frame center)).
Definition yvec (center : R * R) : vec3 := snd (local_frame center).

(** One element of [az_arr]. *)
Definition azimuth (sdotx sdoty : R) : R :=
  np_mod (arctan2 sdotx sdoty + PI) (2 * PI).

(** The azimuth as the specification words it: [atan2(d.x, d.y)] wrapped
    into [[0, 2 pi)]. *)
Definition azimuth_spec (sdotx sdoty : R) : R :=
  np_mod (arctan2 sdotx sdoty) (2 * PI).

(** The body of [calc_azza] once the field of view is known. *)
Definition azza `{Healpix} (fov_deg : R) (Nside : nat) (center : R * R)
  : list R * list R * list nat :=
  let radius := fov_deg * PI / 180 * 1 / 2 in
  let '(cvec, xvec, yvec) := local_frame center in
  let pix := query_disc Nside cvec radius in
  let vecs := map (pix2vec Nside) pix in
  let sdotx := map (fun v => dot3 v xvec) vecs in
  let sdotz := map (fun v => dot3 v cvec) vecs in
  let sdoty := map (fun v => dot3 v yvec) vecs in
  let za_arr := map acos sdotz in
  let az_arr := zip_with azimuth sdotx sdoty in
  (za_arr, az_arr, pix).

(** [calc_azza(Nside, center, return_inds=True)] *)
Definition calc_azza `{Healpix} (obs : observatory) (Nside : nat)
    (center : R * R) : result (list R * list R * list nat) :=
  match fov obs with
  | None => Raise AttributeError
  | Some fov_deg => Ok (azza fov_deg Nside center)
  end.

(** ** The sky shell and the reduction over pixels *)

(** A shell of shape [(Npix, Nfreqs)] ([shNskies = None]) or
    [(Nskies, Npix, Nfreqs)]; [data s p f] is the element at realisation
    [s], pixel [p], channel [f]. *)
Record shell : Type := {
  shNskies : option nat;
  shNpix : nat;
  shNfreqs : nat;
  data : nat -> nat -> nat -> R
}.

(** One visibility: [(Nfreqs,)] for a two-dimensional shell,
    [(Nskies, Nfreqs)] for a three-dimensional one. *)
Inductive visrow : Type :=
| Vis1 (v : list complex)
| Vis2 (v : list (list complex)).

(** The rows of [shell[s, pix, :]]. *)
Definition pixel_rows (sh : shell) (pix : list nat) (s : nat)
  : list (list R) :=
  map (fun p => map (fun f => data sh s p f) (seq 0 (shNfreqs sh))) pix.

(** [shell[..., pix, :]], as a function of the realisation; an index
    outside the pixel axis raises. *)
Definition select_pixels (sh : shell) (pix : list nat)
  : result (nat -> list (list R)) :=
  if forallb (fun p => p <? shNpix sh)%nat pix then Ok (pixel_rows sh pix)
  else Raise IndexError.

(** [np.sum(a, axis=-2)] of an array of shape [(n, width)]. *)
Definition sum_axis0 (width : nat) (rows : list (list complex))
  : list complex :=
  fold_right (zip_with Cadd) (repeat C0 width) rows.

(** [np.sum(sky * beam_cube * fringe_cube, axis=-2)] for one realisation. *)
Definition reduce_pixels (width : nat) (sky : list (list R))
    (beam_cube : list (list R)) (fringe_cube : list (list complex))
  : list complex :=
  sum_axis0 width
    (zip_with (zip_with (fun r z => Cmul (RtoC r) z))
       (zip_with (zip_with Rmult) sky beam_cube) fringe_cube).

(** [np.sum(sel * beam_cube * fringe_cube, axis=-2)] for the selected
    pixels [sel] of a shell of either shape. *)
Definition vis_sum (sh : shell) (sel : nat -> list (list R))
    (beam_cube : list (list R)) (fringe_cube : list (list complex))
  : visrow :=
  let one s := reduce_pixels (shNfreqs sh) (sel s) beam_cube fringe_cube in
  match shNskies sh with
  | None => Vis1 (one 0%nat)
  | Some n => Vis2 (map one (seq 0 n))
  end.

(** [vis] of [vis_calc] for one time sample and one baseline. *)
Definition vis_of (sh : shell) (pix : list nat) (beam_cube : list (list R))
    (fringe_cube : list (list complex)) : result visrow :=
  match select_pixels sh pix with
  | Raise e => Raise e
  | Ok sel => Ok (vis_sum sh sel beam_cube fringe_cube)
  end.

(** ** The workers *)

(** What a worker puts on the results queue. *)
Record entry : Type := { e_ti : nat; e_bi : nat; e_vis : visrow }.

(** The defaults of indexing, as one entry. *)
Definition no_entry : entry := {| e_ti := 0; e_bi := 0; e_vis := Vis1 [] |}.

(** What a worker has done when it ends: the entries it put, in order,
    and the exception that ended it, if one did. *)
Definition trace : Type := (list entry * option exn)%type.

Definition az_ref : ref := 0%nat.
Definition za_ref : ref := 1%nat.

(** The loop over [enumerate(self.array)]; [ti] is [tinds[count]],
    looked up when an entry is put. *)
Fixpoint baseline_loop (sh : shell) (fr : list R) (pix : list nat)
    (beam_cube : list (list R)) (ti : option nat) (h : heap)
    (bls : list (nat * baseline)) : trace :=
  match bls with
  | [] => ([], None)
  | (bi, bl) :: rest =>
      match get_fringe bl az_ref za_ref fr false h with
      | None => ([], Some KeyError)
      | Some (Raise e, _) => ([], Some e)
      | Some (Ok fringe_cube, h') =>
          match vis_of sh pix beam_cube fringe_cube, ti with
          | Raise e, _ => ([], Some e)
          | Ok _, None => ([], Some IndexError)
          | Ok vis, Some t =>
              let '(es, r) := baseline_loop sh fr pix beam_cube ti h' rest in
              ({| e_ti := t; e_bi := bi; e_vis := vis |} :: es, r)
          end
      end
  end.

(** [enumerate] *)
Definition enumerate {A} (l : list A) : list (nat * A) :=
  combine (seq 0 (length l)) l.

(** The body of the loop of [vis_calc] for the pointing centre [c] whose
    time index is [ti]. *)
Definition time_step `{Healpix} (obs : observatory) (Nside : nat)
    (sh : shell) (ti : option nat) (c : R * R) : trace :=
  match calc_azza obs Nside c with
  | Raise e => ([], Some e)
  | Ok (za_arr, az_arr, pix) =>
      match beam obs, freqs obs with
      | Some b, Some fr =>
          let beam_one := beam_val b az_arr za_arr None in
          let beam_cube := map (fun x => repeat x (length fr)) beam_one in
          let h : heap := <[za_ref := za_arr]> (<[az_ref := az_arr]> ∅) in
          baseline_loop sh fr pix beam_cube ti h (enumerate (array obs))
      | _, _ => ([], Some AttributeError)
      end
  end.

(** The loop over [enumerate(pcents)]. *)
Fixpoint vis_calc_loop `{Healpix} (obs : observatory) (Nside : nat)
    (sh : shell) (tinds : list nat) (items : list (nat * (R * R))) : trace :=
  match items with
  | [] => ([], None)
  | (count, c) :: rest =>
      match time_step obs Nside sh (nth_error tinds count) c with
      | (es, Some e) => (es, Some e)
      | (es, None) =>
          let '(es', r) := vis_calc_loop obs Nside sh tinds rest in
          (es ++ es', r)
      end
  end.

(** [vis_calc(pcents, tinds, shell, vis_array, Nfin)]; the progress
    counter and the printing are left out. *)
Definition vis_calc `{Healpix} (obs : observatory) (Nside : nat)
    (pcents : list (R * R)) (tinds : list nat) (sh : shell) : trace :=
  if (length pcents =? 0)%nat then ([], None)
  else vis_calc_loop obs Nside sh tinds (enumerate pcents).

(** What a worker puts for the pointing centre [c] and the baseline
    [bl], without the loops and the heap around it. *)
Definition visibility `{Healpix} (fov_deg : R) (b : analyticbeam)
    (fr : list R) (Nside : nat) (sh : shell) (c : R * R) (bl : baseline)
  : visrow :=
  let '(za_arr, az_arr, pix) := azza fov_deg Nside c in
  let beam_cube :=
    map (fun x => repeat x (length fr)) (beam_val b az_arr za_arr None) in
  let fringe_cube := make_fringe az_arr za_arr fr (enu bl) in
  vis_sum sh (pixel_rows sh pix) beam_cube fringe_cube.

(** ** The controller *)

(** [np.cumsum] on integers. *)
Fixpoint cumsum_from (acc : nat) (l : list nat) : list nat :=
  match l with
  | [] => []
  | x :: l' => (acc + x)%nat :: cumsum_from (acc + x) l'
  end.

(** [ary[st:end]] *)
Definition slice {A} (ary : list A) (st en : nat) : list A :=
  firstn (en - st) (skipn st ary).

(** [np.array_split(ary, Nsections)]: the first [Ntotal % Nsections]
    sections have one element more than the others; no section raises. *)
Definition array_split {A} (ary : list A) (Nsections : nat)
  : result (list (list A)) :=
  if (Nsections =? 0)%nat then Raise ValueError
  else
    let Ntotal := length ary in
    let Neach_section := (Ntotal / Nsections)%nat in
    let extras := (Ntotal mod Nsections)%nat in
    let section_sizes :=
      0%nat :: repeat (Neach_section + 1)%nat extras
        ++ repeat Neach_section (Nsections - extras) in
    let div_points := cumsum_from 0 section_sizes in
    Ok (map (fun i => slice ary (nth i div_points 0%nat)
                            (nth (i + 1) div_points 0%nat))
            (seq 0 Nsections)).

(** The division points of [array_split] in closed form: section [i]
    starts where the first [i] sections end. *)
Definition div_point (Ntotal Nsections i : nat) : nat :=
  (i * (Ntotal / Nsections) + Nat.min i (Ntotal mod Nsections))%nat.

(** The manager queue when the workers have ended.  Worker [i] has put
    the entries [ws !! i] in order; [sched] names, put after put, the
    worker whose entry the queue receives next (a name that has nothing
    left to put is passed over), and what remains when [sched] ends
    follows worker by worker. *)
Fixpoint run_schedule {A} (sched : list nat) (ws : list (list A)) : list A :=
  match sched with
  | [] => concat ws
  | i :: sched' =>
      match ws !! i with
      | Some (x :: rest) => x :: run_schedule sched' (<[i := rest]> ws)
      | _ => run_schedule sched' ws
      end
  end.

(** The loop [for ... in iter(vis_array.get, None)] with its
    [if vis_array.empty(): break]: [get] on an empty queue blocks. *)
Fixpoint drain {A} (q : list A) : option (list A) :=
  match q with
  | [] => None
  | x :: q' =>
      match q' with
      | [] => Some [x]
      | _ :: _ =>
          match drain q' with
          | Some l => Some (x :: l)
          | None => None
          end
      end
  end.

(** The order of [np.lexsort((time_inds, baseline_inds))] on the keys
    [(baseline, time)]: the last key is the primary one. *)
Definition key_le (k1 k2 : nat * nat) : bool :=
  (fst k1 <? fst k2)%nat || ((fst k1 =? fst k2)%nat && (snd k1 <=? snd k2)%nat).

Fixpoint insert_by (key : nat -> nat * nat) (i : nat) (l : list nat)
  : list nat :=
  match l with
  | [] => [i]
  | j :: l' =>
      if key_le (key i) (key j) then i :: l else j :: insert_by key i l'
  end.

(** [np.lexsort((time_inds, baseline_inds))]: the indices in the order
    that sorts by baseline, then by time; equal keys keep their order. *)
Definition lexsort (time_inds baseline_inds : list nat) : list nat :=
  let key i := (nth i baseline_inds 0%nat, nth i time_inds 0%nat) in
  fold_right (insert_by key) [] (seq 0 (length time_inds)).

(** The key of an entry, and the order of the keys on entries. *)
Definition entry_key (e : entry) : nat * nat := (e_bi e, e_ti e).

Definition entry_le (e1 e2 : entry) : Prop :=
  key_le (entry_key e1) (entry_key e2) = true.

(** [arr[srt]] for the index array [srt]. *)
Definition gather {A} (d : A) (arr : list A) (srt : list nat) : list A :=
  map (fun i => nth i arr d) srt.

(** [self.times_jd[time_inds]]; an index out of range raises. *)
Definition index_all {A} (arr : list A) (inds : list nat) : option (list A) :=
  mapM (fun i => arr !! i) inds.

(** [vis / conv_fact]: the division runs along the frequency axis. *)
Definition vis_div (conv_fact : list R) (v : visrow) : visrow :=
  match v with
  | Vis1 a => Vis1 (zip_with Cdiv_R a conv_fact)
  | Vis2 a => Vis2 (map (fun r => zip_with Cdiv_R r conv_fact) a)
  end.

(** Row [r] of the result in canonical order: baseline [r / Ntimes],
    time [r mod Ntimes]. *)
Definition canonical_entry `{Healpix} (fov_deg : R) (b : analyticbeam)
    (fr : list R) (Nside : nat) (sh : shell) (centers : list (R * R))
    (arr : list baseline) (r : nat) : entry :=
  let t := (r mod length centers)%nat in
  let bi := (r / length centers)%nat in
  {| e_ti := t; e_bi := bi;
     e_vis := visibility fov_deg b fr Nside sh (nth t centers (0, 0))
                (nth bi arr {| enu := [] |}) |}.

Definition canonical_entries `{Healpix} (fov_deg : R) (b : analyticbeam)
    (fr : list R) (Nside : nat) (sh : shell) (centers : list (R * R))
    (arr : list baseline) : list entry :=
  map (canonical_entry fov_deg b fr Nside sh centers arr)
      (seq 0 (length arr * length centers)).

(** [make_visibilities(shell, Nprocs)].  The wait on [Nfin] ends because
    every worker ends; by then every entry a worker put is on the queue,
    in the order [sched] decides. *)
Definition make_visibilities `{Healpix} (obs : observatory) (sh : shell)
    (Nprocs : nat) (sched : list nat)
  : outcome (list visrow * list R * list nat) :=
  match Nfreqs obs, freqs obs with
  | Some n, Some fr =>
    if negb (shNfreqs sh =? n)%nat then Raised AssertionError else
    match npix2nside (shNpix sh) with
    | Raise e => Raised e
    | Ok Nside =>
      if (shNpix sh =? 0)%nat then Raised ZeroDivisionError else
      let pix_area_sr := 4 * PI / INR (shNpix sh) in
      let conv_fact := map (fun f => jy2Tstr f pix_area_sr) fr in
      match pointing obs with
      | None => Raised AttributeError
      | Some (times_jd, pointing_centers) =>
        let Ntimes := length pointing_centers in
        match array_split pointing_centers Nprocs,
              array_split (seq 0 Ntimes) Nprocs with
        | Ok pcenter_list, Ok time_inds =>
          let procs :=
            map (fun pi => vis_calc obs Nside (nth pi pcenter_list [])
                             (nth pi time_inds []) sh)
                (seq 0 Nprocs) in
          let vis_array := run_schedule sched (map fst procs) in
          match drain vis_array with
          | None => Blocked
          | Some got =>
            let visibilities := map e_vis got in
            let time_inds := map e_ti got in
            let baseline_inds := map e_bi got in
            let srt := lexsort time_inds baseline_inds in
            let time_inds := gather 0%nat time_inds srt in
            let visibilities := gather (Vis1 []) visibilities srt in
            match index_all times_jd time_inds with
            | None => Raised IndexError
            | Some time_array =>
              Returned (map (vis_div conv_fact) visibilities,
                        time_array,
                        gather 0%nat baseline_inds srt)
            end
          end
        | Raise e, _ => Raised e
        | _, Raise e => Raised e
        end
      end
    end
  | _, _ => Raised AttributeError
  end.

(** What [make_visibilities] comes to, the worker count and the schedule
    left out: the canonical rows when every check passes and there is a
    row to get, a blocked controller when the workers die on the unset
    field of view or beam or when there is no row. *)
Definition visibilities_in_order `{Healpix} (obs : observatory) (sh : shell)
  : outcome (list visrow * list R * list nat) :=
  match Nfreqs obs, freqs obs with
  | Some n, Some fr =>
    if negb (shNfreqs sh =? n)%nat then Raised AssertionError else
    match npix2nside (shNpix sh) with
    | Raise e => Raised e
    | Ok Nside =>
      if (shNpix sh =? 0)%nat then Raised ZeroDivisionError else
      let conv_fact :=
        map (fun f => jy2Tstr f (4 * PI / INR (shNpix sh))) fr in
      match pointing obs with
      | None => Raised AttributeError
      | Some (times_jd, pointing_centers) =>
        match fov obs, beam obs with
        | Some fv, Some b =>
          let rows :=
            canonical_entries fv b fr Nside sh pointing_centers (array obs) in
          match rows with
          | [] => Blocked
          | _ :: _ =>
            match index_all times_jd (map e_ti rows) with
            | None => Raised IndexError
            | Some time_array =>
              Returned (map (vis_div conv_fact) (map e_vis rows),
                        time_array, map e_bi rows)
            end
          end
        | _, _ => Blocked
        end
      end
    end
  | _, _ => Raised AttributeError
  end.


(** ** A small observation

    One east-west baseline of 14.6 m, a Gaussian beam, two times, two
    frequencies, a shell of Nside 2; and the same observatory without a
    field of view, and without a baseline. *)

Definition example_baseline : baseline := {| enu := [0; -14.6; 0] |}.

Definition example_obs : observatory :=
  {| lat := -30.7215277777; lon := 21.4283055554;
     array := [example_baseline];
     fov := Some 100;
     freqs := Some [1e8; 1.3e8];
     pointing := Some ([2451545; 2451545.5], [(0, 0); (180, -30)]);
     beam := Some (Gaussian (50 / 2.355 * PI / 180)) |}.

Definition example_obs_no_fov : observatory :=
  {| lat := lat example_obs; lon := lon example_obs;
     array := array example_obs; fov := None; freqs := freqs example_obs;
     pointing := pointing example_obs; beam := beam example_obs |}.


Definition example_shell : shell :=
  {| shNskies := None; shNpix := 48; shNfreqs := 2;
     data := fun _ p f => INR p + INR f |}.

(** ** Further parts of the module *)

(** The complex conjugate. *)
Definition Cconj (a : complex) : complex := mkC (Re a) (- Im a).

(** [observatory.get_observed_region(Nside)]: without [set_pointings]
    the attribute [pointing_centers] does not exist; the failed assertion
    on [fov] is raised again as an [AssertionError]. *)
Definition get_observed_region `{Healpix} (obs : observatory) (Nside : nat)
  : result (list (list nat)) :=
  match pointing obs with
  | None => Raise AttributeError
  | Some (_, pointing_centers) =>
      match fov obs with
      | None => Raise AssertionError
      | Some fov_deg =>
          Ok (map (fun cent =>
                     let cent := ang2vec (fst cent) (snd cent) in
                     query_disc Nside cent (2 * sqrt 2 * radians fov_deg))
                  pointing_centers)
      end
  end.

(** A second pixelisation of one pixel, with a direction due east of the
    pointing centre [(0, 0)]. *)
Definition one_pixel_east : Healpix :=
  {| query_disc := fun Nside _ _ => if (2 <=? Nside)%nat then [12%nat] else [];
     pix2vec := fun _ _ => (sqrt 8 / 3, 1 / 3, 0) |}.

(** Shells for the examples of failing checks: three channels where the
    observatory has two, and a pixel count that is no HEALPix size. *)
Definition example_shell_3_channels : shell :=
  {| shNskies := None; shNpix := 48; shNfreqs := 3;
     data := fun _ p f => INR p + INR f |}.

Definition example_shell_47_pixels : shell :=
  {| shNskies := None; shNpix := 47; shNfreqs := 2;
     data := fun _ p f => INR p + INR f |}.

Definition example_obs_no_beam : observatory :=
  {| lat := lat example_obs; lon := lon example_obs;
     array := array example_obs; fov := fov example_obs;
     freqs := freqs example_obs; pointing := pointing example_obs;
     beam := None |}.

Definition example_obs_no_pointings : observatory :=
  {| lat := lat example_obs; lon := lon example_obs;
     array := array example_obs; fov := fov example_obs;
     freqs := freqs example_obs; pointing := None;
     beam := beam example_obs |}.

Definition example_obs_no_times : observatory :=
  {| lat := lat example_obs; lon := lon example_obs;
     array := array example_obs; fov := fov example_obs;
     freqs := freqs example_obs; pointing := Some ([], []);
     beam := beam example_obs |}.








(** * Properties

    ** Lists and arrays *)

Lemma complex_eq (a b : complex) : Re a = Re b -> Im a = Im b -> a = b.
Proof. destruct a, b; simpl; intros -> ->; reflexivity. Qed.

Lemma length_zip_with_same {A B C} (f : A -> B -> C) l k :
  length l = length k -> length (zip_with f l k) = length l.
Proof.
  revert k; induction l as [|x l IH]; intros [|y k]; simpl; intros H;
    try reflexivity; try discriminate.
  f_equal. apply IH. injection H as H. exact H.
Qed.

Lemma nth_zip_with {A B C} (f : A -> B -> C) l k i da db dc :
  (i < length l)%nat -> (i < length k)%nat ->
  nth i (zip_with f l k) dc = f (nth i l da) (nth i k db).
Proof.
  revert k i; induction l as [|x l IH]; intros [|y k] [|i]; simpl; intros Hl Hk;
    try lia; try reflexivity.
  apply IH; lia.
Qed.

Lemma nth_map_seq {A} (f : nat -> A) n i d :
  (i < n)%nat -> nth i (map f (seq 0 n)) d = f i.
Proof.
  intros H. rewrite (nth_indep _ d (f 0%nat)) by (rewrite length_map, length_seq; exact H).
  rewrite (map_nth f (seq 0 n) 0%nat i). rewrite seq_nth by exact H. reflexivity.
Qed.

Lemma nth_map_lt {A B} (f : A -> B) l i da db :
  (i < length l)%nat -> nth i (map f l) db = f (nth i l da).
Proof.
  intros H. rewrite (nth_indep _ db (f da)) by (rewrite length_map; exact H).
  apply map_nth.
Qed.

Lemma nth_scaled_row (e : R) (g : R -> R) (freq : list R) (l : nat) :
  (l < length freq)%nat ->
  nth l (map (fun y => e * y) (map g freq)) 0 = e * g (nth l freq 0).
Proof.
  intros H. rewrite (nth_map_lt _ _ l 0) by (rewrite length_map; exact H).
  rewrite (nth_map_lt _ _ l 0) by exact H. reflexivity.
Qed.

(** The fringe element in terms of the phase [x]. *)
Lemma fringe_element (x : R) :
  Cadd (RtoC (cos x)) (Cmul Cj (RtoC (sin x))) = mkC (cos x) (sin x).
Proof. apply complex_eq; simpl; ring. Qed.

Lemma make_fringe_length az za freq enu :
  length az = length za ->
  length (make_fringe az za freq enu) = length az.
Proof.
  intros H. unfold make_fringe, einsum_jk_jl_kl, vstack. simpl.
  rewrite !length_map, length_seq, length_zip_with_same; rewrite !length_map; auto.
Qed.

Lemma make_fringe_nth az za freq e0 e1 e2 k l :
  length az = length za -> (k < length az)%nat -> (l < length freq)%nat ->
  nth l (nth k (make_fringe az za freq [e0; e1; e2]) []) C0 =
  let x := nth k az 0 in
  let z := nth k za 0 in
  let f := nth l freq 0 in
  let udotl := sin x * sin z * (e0 * (1 / (c_ms / f)))
             + cos x * sin z * (e1 * (1 / (c_ms / f)))
             + cos z * (e2 * (1 / (c_ms / f))) in
  mkC (cos (2 * PI * udotl)) (sin (2 * PI * udotl)).
Proof.
  intros Hlen Hk Hl. unfold make_fringe, einsum_jk_jl_kl, vstack, outer.
  cbn [hd zip_with map length].
  rewrite length_zip_with_same by (rewrite !length_map; exact Hlen).
  rewrite !length_map.
  rewrite (nth_map_lt _ _ k []) by (rewrite length_map, length_seq; exact Hk).
  rewrite (nth_map_seq _ _ k) by exact Hk.
  rewrite (nth_map_lt _ _ l 0) by (rewrite length_map, length_seq; exact Hl).
  rewrite (nth_map_seq _ _ l) by exact Hl.
  rewrite fringe_element. cbn [Rsum fold_right].
  rewrite !(nth_zip_with Rmult _ _ k 0 0 0) by (rewrite !length_map; lia).
  rewrite !(nth_map_lt _ az k 0), !(nth_map_lt _ za k 0) by lia.
  rewrite !nth_scaled_row by exact Hl.
  cbv zeta. f_equal; f_equal; ring.
Qed.

Lemma make_fringe_row_length az za freq e0 e1 e2 k :
  length az = length za -> (k < length az)%nat ->
  length (nth k (make_fringe az za freq [e0; e1; e2]) []) = length freq.
Proof.
  intros Hlen Hk. unfold make_fringe, einsum_jk_jl_kl, vstack, outer.
  cbn [hd zip_with map length].
  rewrite length_zip_with_same by (rewrite !length_map; exact Hlen).
  rewrite !length_map.
  rewrite (nth_map_lt _ _ k []) by (rewrite length_map, length_seq; exact Hk).
  rewrite (nth_map_seq _ _ k) by exact Hk.
  rewrite !length_map, length_seq. reflexivity.
Qed.

(** ** The fringe generator *)

(** C4: for azimuths and zenith angles of one length, frequencies and a
    baseline vector [enu = (e0, e1, e2)], [make_fringe] returns an array
    with one row per pixel and one column per frequency whose element
    [pixel, frequency] is [cos(2 pi u.l) + i sin(2 pi u.l)], with [l] the
    direction cosines [(sin az sin za, cos az sin za, cos za)] of the pixel
    and [u = enu / wavelength] at the frequency. *)
Theorem make_fringe_formula (az za freq : list R) (e0 e1 e2 : R) :
  length az = length za ->
  length (make_fringe az za freq [e0; e1; e2]) = length az /\
  forall k l, (k < length az)%nat -> (l < length freq)%nat ->
    length (nth k (make_fringe az za freq [e0; e1; e2]) []) = length freq /\
    nth l (nth k (make_fringe az za freq [e0; e1; e2]) []) C0 =
      let lvec := direction_cosines (nth k az 0) (nth k za 0) in
      let lam := wavelength (nth l freq 0) in
      let u := (e0 / lam, e1 / lam, e2 / lam) in
      mkC (cos (2 * PI * dot3 u lvec)) (sin (2 * PI * dot3 u lvec)).
Proof.
  intros Hlen. split; [apply make_fringe_length; exact Hlen|].
  intros k l Hk Hl. split; [apply make_fringe_row_length; assumption|].
  rewrite make_fringe_nth by assumption.
  unfold direction_cosines, wavelength, dot3. cbv zeta.
  f_equal; f_equal; f_equal; unfold Rdiv; ring.
Qed.

Lemma make_fringe_formula_witness :
  nth 0 (nth 0 (make_fringe [0] [0] [c_ms] [1; 2; 3]) []) C0
  = mkC (cos (2 * PI * dot3 (1 / wavelength c_ms, 2 / wavelength c_ms,
                             3 / wavelength c_ms)
                            (direction_cosines 0 0)))
        (sin (2 * PI * dot3 (1 / wavelength c_ms, 2 / wavelength c_ms,
                             3 / wavelength c_ms)
                            (direction_cosines 0 0))).
Proof.
  exact (proj2 (proj2 (make_fringe_formula [0] [0] [c_ms] 1 2 3 eq_refl)
                  0%nat 0%nat (Nat.lt_0_succ 0) (Nat.lt_0_succ 0))).
Defined.

(** C6: for azimuths and zenith angles of one length and any frequencies,
    the fringe of the zero baseline [enu = (0, 0, 0)] is the array, one
    row per pixel and one column per frequency, whose every element is
    [1 + 0i]. *)
Theorem make_fringe_zero_baseline (az za freq : list R) :
  length az = length za ->
  make_fringe az za freq [0; 0; 0]
  = repeat (repeat (mkC 1 0) (length freq)) (length az).
Proof.
  intros Hlen.
  apply (nth_ext _ _ [] []).
  - rewrite repeat_length. apply make_fringe_length; exact Hlen.
  - intros k Hk. rewrite make_fringe_length in Hk by exact Hlen.
    rewrite nth_repeat_lt by exact Hk.
    apply (nth_ext _ _ C0 C0).
    + rewrite repeat_length. apply make_fringe_row_length; assumption.
    + intros l Hl. rewrite make_fringe_row_length in Hl by assumption.
      rewrite make_fringe_nth by assumption.
      rewrite nth_repeat_lt by exact Hl. cbv zeta.
      replace (2 * PI * _) with 0 by ring.
      rewrite cos_0, sin_0. reflexivity.
Qed.

Lemma make_fringe_zero_baseline_witness :
  make_fringe [0; 1] [1; 2] [1; 2; 3] [0; 0; 0]
  = [[mkC 1 0; mkC 1 0; mkC 1 0]; [mkC 1 0; mkC 1 0; mkC 1 0]].
Proof. exact (make_fringe_zero_baseline [0; 1] [1; 2] [1; 2; 3] eq_refl). Defined.

(** ** The analytic beam *)

Lemma gaussian_exponent_decreasing (sigma z1 z2 : R) :
  sigma <> 0 -> 0 <= z1 < z2 ->
  - (z2 ^ 2) / (2 * sigma ^ 2) < - (z1 ^ 2) / (2 * sigma ^ 2).
Proof.
  intros Hs [H1 H2].
  assert (Hpos : 0 < 2 * sigma ^ 2) by nra.
  unfold Rdiv. apply Rmult_lt_compat_r.
  - apply Rinv_0_lt_compat; exact Hpos.
  - nra.
Qed.

Lemma radians_sigma_nonzero (s : R) : s <> 0 -> s * PI / 180 <> 0.
Proof.
  intros Hs H. apply Hs. pose proof PI_RGT_0 as Hpi.
  unfold Rdiv in H. apply Rmult_integral in H as [H|H].
  - apply Rmult_integral in H as [H|H]; [exact H | lra].
  - exfalso. assert (/ 180 > 0) by (apply Rinv_0_lt_compat; lra). lra.
Qed.

(** Where the divisor of the exponent is not zero, the float64 value of
    the beam is the real one. *)
Lemma beam_val_float_finite (b : analyticbeam) (az za : list R)
    (freq_Hz : option R) :
  (forall sigma, b = Gaussian sigma -> gaussian_divisor sigma <> 0) ->
  beam_val_float b az za freq_Hz = map Real (beam_val b az za freq_Hz).
Proof.
  intros Hb. destruct b as [|sigma]; simpl.
  - rewrite map_map. reflexivity.
  - rewrite map_map. apply map_ext. intros z. unfold float_div.
    destruct (Req_EM_T (gaussian_divisor sigma) 0) as [H0|_]; [|reflexivity].
    exfalso. exact (Hb sigma eq_refl H0).
Qed.

(** C8 as stated fails for the sigma 0, which the constructor accepts:
    the divisor [2 * sigma**2] of the exponent is then zero, so at the
    zenith angle 0 the exponent is the quotient of zero by zero and the
    value of the beam is nan, not 1. *)
Lemma gaussian_beam_sigma_zero_is_nan :
  analyticbeam_init "gaussian" (Some 0) = Ok (Gaussian (0 * PI / 180)) /\
  gaussian_divisor (0 * PI / 180) = 0 /\
  beam_val_float (Gaussian (0 * PI / 180)) [0] [0] None = [NaN] /\
  beam_val_float (Gaussian (0 * PI / 180)) [0] [0] None <> [Real 1].
Proof.
  assert (H : gaussian_divisor (0 * PI / 180) = 0)
    by (unfold gaussian_divisor, Rdiv; ring).
  assert (Hnan : beam_val_float (Gaussian (0 * PI / 180)) [0] [0] None
                 = [NaN]).
  { simpl. unfold float_div.
    destruct (Req_EM_T (gaussian_divisor (0 * PI / 180)) 0) as [_|Hne];
      [|contradiction].
    destruct (Req_EM_T (- (0 * (0 * 1))) 0) as [_|Hne]; [reflexivity|].
    exfalso. apply Hne. ring. }
  split; [reflexivity|]. split; [exact H|]. split; [exact Hnan|].
  rewrite Hnan. discriminate.
Qed.

(** C8, amended: a Gaussian beam built with a sigma [s <> 0] (in degrees)
    holds [sigma = s * pi / 180]; the divisor of its exponent is not zero
    and [beam_val] returns, for every zenith angle [za] it is given,
    [exp (- za^2 / (2 sigma^2))], whatever the azimuths and the frequency
    are.  So the value is exactly 1 wherever the zenith angle is 0, and of
    two zenith angles [0 <= za1 < za2] the larger has the strictly
    smaller value. *)
Theorem gaussian_beam_peak_and_decreasing (s : R) :
  s <> 0 ->
  analyticbeam_init "gaussian" (Some s) = Ok (Gaussian (s * PI / 180)) /\
  gaussian_divisor (s * PI / 180) <> 0 /\
  (forall az za freq_Hz,
      beam_val (Gaussian (s * PI / 180)) az za freq_Hz
      = map (fun z => exp (- (z ^ 2) / (2 * (s * PI / 180) ^ 2))) za) /\
  (forall az za freq_Hz k,
      (k < length za)%nat -> nth k za 0 = 0 ->
      nth k (beam_val (Gaussian (s * PI / 180)) az za freq_Hz) 0 = 1) /\
  (forall az1 az2 za1 za2 freq1 freq2 k1 k2,
      (k1 < length za1)%nat -> (k2 < length za2)%nat ->
      0 <= nth k1 za1 0 < nth k2 za2 0 ->
      nth k2 (beam_val (Gaussian (s * PI / 180)) az2 za2 freq2) 0
      < nth k1 (beam_val (Gaussian (s * PI / 180)) az1 za1 freq1) 0).
Proof.
  intros Hs. pose proof (radians_sigma_nonzero s Hs) as Hsig.
  split; [reflexivity|]. split; [|split; [|split]].
  - unfold gaussian_divisor. intros H0.
    apply Rmult_integral in H0 as [H0|H0]; [lra|].
    apply Hsig. simpl in H0. apply Rmult_integral in H0 as [H0|H0];
      [exact H0|]. lra.
  - intros az za freq_Hz. reflexivity.
  - intros az za freq_Hz k Hk Hz. unfold beam_val, gaussian_divisor.
    rewrite (nth_map_lt _ za k 0) by exact Hk. rewrite Hz.
    replace (- (0 ^ 2) / (2 * (s * PI / 180) ^ 2)) with 0
      by (unfold Rdiv; ring).
    apply exp_0.
  - intros az1 az2 za1 za2 freq1 freq2 k1 k2 Hk1 Hk2 Hz.
    unfold beam_val, gaussian_divisor.
    rewrite (nth_map_lt _ za1 k1 0) by exact Hk1.
    rewrite (nth_map_lt _ za2 k2 0) by exact Hk2.
    apply exp_increasing, gaussian_exponent_decreasing.
    + exact Hsig.
    + exact Hz.
Qed.

Lemma gaussian_beam_peak_and_decreasing_witness :
  gaussian_divisor (10 * PI / 180) <> 0 /\
  beam_val (Gaussian (10 * PI / 180)) [0; 0] [0; 1] (Some 1e8)
  = [exp (- (0 ^ 2) / (2 * (10 * PI / 180) ^ 2));
     exp (- (1 ^ 2) / (2 * (10 * PI / 180) ^ 2))] /\
  nth 0 (beam_val (Gaussian (10 * PI / 180)) [0] [0] None) 0 = 1 /\
  nth 0 (beam_val (Gaussian (10 * PI / 180)) [0] [1] (Some 1e8)) 0
  < nth 0 (beam_val (Gaussian (10 * PI / 180)) [0] [0] None) 0.
Proof.
  assert (H10 : 10 <> 0) by lra.
  destruct (gaussian_beam_peak_and_decreasing 10 H10)
    as [_ [Hdiv [Hval [Hpeak Hdec]]]].
  split; [exact Hdiv|]. split; [|split].
  - rewrite Hval. reflexivity.
  - apply Hpeak; [simpl; lia | reflexivity].
  - apply Hdec; simpl; try lia; lra.
Defined.

(** ** The baseline and the arrays of its caller *)

(** A baseline that [baseline.__init__] accepts has three components. *)
Lemma baseline_init_size (ant1_enu ant2_enu : list R) (bl : baseline) :
  baseline_init ant1_enu ant2_enu = Ok bl -> length (enu bl) = 3%nat.
Proof.
  unfold baseline_init.
  destruct (np_subtract ant1_enu ant2_enu) as [d|e]; [|discriminate].
  destruct (length d =? 3)%nat eqn:E; [|discriminate].
  intros Heq. injection Heq as <-. apply Nat.eqb_eq in E. exact E.
Qed.

(** On arrays of one length the subtraction is elementwise. *)
Lemma np_subtract_same_length (a b : list R) :
  length a = length b -> np_subtract a b = Ok (zip_with Rminus a b).
Proof. intros Hlen. unfold np_subtract. rewrite Hlen, Nat.eqb_refl. reflexivity. Qed.

(** A position of one component is broadcast over one of three. *)
Lemma baseline_init_broadcast (x : R) (b0 b1 b2 : R) :
  baseline_init [x] [b0; b1; b2] = Ok {| enu := [x - b0; x - b1; x - b2] |}.
Proof. reflexivity. Qed.

Lemma lookup_imul (h : heap) (a r : ref) (k : R) :
  imul h a k !! r
  = if decide (a = r) then map (fun x => x * k) <$> h !! a else h !! r.
Proof. unfold imul. apply lookup_alter. Qed.

Lemma lookup_imul_eq (h : heap) (a : ref) (k : R) :
  imul h a k !! a = map (fun x => x * k) <$> h !! a.
Proof. rewrite lookup_imul. case_decide; [reflexivity | congruence]. Qed.

Lemma lookup_imul_ne (h : heap) (a r : ref) (k : R) :
  a <> r -> imul h a k !! r = h !! r.
Proof. intros Hne. rewrite lookup_imul. case_decide; [congruence | reflexivity]. Qed.

(** On arrays of one length the call returns the fringe. *)
Lemma make_fringe_call_same_length (az za freq enu : list R) :
  length az = length za ->
  make_fringe_call az za freq enu = Ok (make_fringe az za freq enu).
Proof.
  intros Hlen. unfold make_fringe_call. rewrite Hlen, Nat.eqb_refl.
  reflexivity.
Qed.

(** Two arrays of different lengths, the first of which has not exactly
    one element, make the call raise. *)
Lemma make_fringe_call_raises (az za freq enu : list R) :
  length az <> length za -> length az <> 1%nat ->
  make_fringe_call az za freq enu = Raise ValueError.
Proof.
  intros Hne H1. unfold make_fringe_call.
  destruct (Nat.eqb_spec (length az) (length za)); [contradiction|].
  destruct (Nat.eqb_spec (length az) 1); [contradiction|]. reflexivity.
Qed.

(** Without [degrees] the call reads the two arrays and writes nothing. *)
Lemma get_fringe_no_degrees (bl : baseline) (az za : ref) (freq_Hz : list R)
    (h : heap) (az_v za_v : list R) :
  h !! az = Some az_v -> h !! za = Some za_v ->
  get_fringe bl az za freq_Hz false h
  = Some (make_fringe_call az_v za_v freq_Hz (enu bl), h).
Proof. intros Ha Hz. unfold get_fringe. rewrite Ha, Hz. reflexivity. Qed.

Lemma get_fringe_radians (bl : baseline) (az za : ref) (freq_Hz : list R)
    (h : heap) (az_v za_v : list R) :
  h !! az = Some az_v -> h !! za = Some za_v ->
  length az_v = length za_v ->
  get_fringe bl az za freq_Hz false h
  = Some (Ok (make_fringe az_v za_v freq_Hz (enu bl)), h).
Proof.
  intros Ha Hz Hlen. rewrite (get_fringe_no_degrees bl az za freq_Hz h az_v za_v)
    by assumption.
  rewrite make_fringe_call_same_length by exact Hlen. reflexivity.
Qed.

(** With [degrees] the two arrays, when they are two objects, are scaled
    in the heap before [make_fringe] is called on them. *)
Lemma get_fringe_degrees (bl : baseline) (az za : ref) (freq_Hz : list R)
    (h : heap) (az_v za_v : list R) :
  h !! az = Some az_v -> h !! za = Some za_v -> az <> za ->
  get_fringe bl az za freq_Hz true h
  = Some (make_fringe_call (map (fun x => x * (PI / 180)) az_v)
            (map (fun x => x * (PI / 180)) za_v) freq_Hz (enu bl),
          imul (imul h az (PI / 180)) za (PI / 180)) /\
  imul (imul h az (PI / 180)) za (PI / 180) !! az
  = Some (map (fun x => x * (PI / 180)) az_v) /\
  imul (imul h az (PI / 180)) za (PI / 180) !! za
  = Some (map (fun x => x * (PI / 180)) za_v).
Proof.
  intros Ha Hz Hne.
  assert (Haz : imul (imul h az (PI / 180)) za (PI / 180) !! az
                = Some (map (fun x => x * (PI / 180)) az_v)).
  { rewrite lookup_imul_ne by congruence. rewrite lookup_imul_eq, Ha.
    reflexivity. }
  assert (Hza : imul (imul h az (PI / 180)) za (PI / 180) !! za
                = Some (map (fun x => x * (PI / 180)) za_v)).
  { rewrite lookup_imul_eq. rewrite lookup_imul_ne by congruence.
    rewrite Hz. reflexivity. }
  split; [|split; assumption].
  unfold get_fringe. rewrite Haz, Hza. reflexivity.
Qed.


(** With [degrees=True] the arrays are scaled even when the call then
    raises for their lengths. *)
Lemma get_fringe_degrees_raises_after_scaling (bl : baseline) (az za : ref)
    (freq_Hz : list R) (h : heap) (az_v za_v : list R) :
  h !! az = Some az_v -> h !! za = Some za_v -> az <> za ->
  length az_v <> length za_v -> length az_v <> 1%nat ->
  exists h',
    get_fringe bl az za freq_Hz true h = Some (Raise ValueError, h') /\
    h' !! az = Some (map (fun x => x * (PI / 180)) az_v) /\
    h' !! za = Some (map (fun x => x * (PI / 180)) za_v).
Proof.
  intros Ha Hz Hne Hlen H1.
  destruct (get_fringe_degrees bl az za freq_Hz h az_v za_v Ha Hz Hne)
    as [Hcall [Haz Hza]].
  eexists. split; [|split; eassumption].
  rewrite Hcall. rewrite make_fringe_call_raises
    by (rewrite !length_map; assumption).
  reflexivity.
Qed.




(** ** The tangent frame of [calc_azza] *)

Lemma colat_theta (center : R * R) :
  PI / 2 - radians (snd center) = colat center.
Proof. unfold colat, radians. field. Qed.

Lemma colat_range (center : R * R) :
  -90 < snd center < 90 -> 0 < colat center < PI.
Proof.
  intros [H1 H2]. unfold colat, radians. pose proof PI_RGT_0 as Hpi.
  split.
  - apply Rmult_lt_0_compat; [|lra]. apply Rmult_lt_0_compat; lra.
  - replace PI with (180 * PI / 180) at 2 by field.
    unfold Rdiv. apply Rmult_lt_compat_r; [lra|].
    apply Rmult_lt_compat_r; lra.
Qed.

Lemma xvec_divisor_pos (center : R * R) :
  -90 < snd center < 90 -> 0 < xvec_divisor center.
Proof.
  intros H. unfold xvec_divisor.
  apply sin_gt_0; apply colat_range; exact H.
Qed.

Lemma local_frame_closed_form (center : R * R) :
  xvec_divisor center <> 0 ->
  local_frame center
  = let t := colat center in
    let p := radians (fst center) in
    ((sin t * cos p, sin t * sin p, cos t),
     (- sin p, cos p, 0),
     (- (cos t * cos p), - (cos t * sin p), sin t)).
Proof.
  intros Hs. unfold local_frame, ang2vec, cross. rewrite colat_theta.
  unfold xvec_divisor in *. cbv zeta.
  set (t := colat center) in *. set (p := radians (fst center)).
  pose proof (sin2_cos2 p) as Hp. unfold Rsqr in Hp.
  repeat f_equal; try (field; exact Hs).
  - field_simplify; [|exact Hs]. nra.
Qed.

(** C9 as stated fails: at the north celestial pole the divisor of
    [xvec] is zero, and [calc_azza] has no other branch. *)
Lemma xvec_divisor_zero_at_pole :
  xvec_divisor (0, 90) = 0 /\ ~ (forall center, xvec_divisor center <> 0).
Proof.
  assert (H : xvec_divisor (0, 90) = 0).
  { unfold xvec_divisor, colat, radians. simpl.
    replace ((90 - 90) * PI / 180) with 0 by field. apply sin_0. }
  split; [exact H|]. intros Hall. exact (Hall (0, 90) H).
Qed.

(** C9, amended: for a pointing centre with declination strictly between
    -90 and 90 degrees the divisor [sin(colat)] of [xvec] is not zero, and
    the frame [(cvec, xvec, yvec)] that [calc_azza] builds is
    orthonormal. *)
Theorem local_frame_well_defined (center : R * R) :
  -90 < snd center < 90 ->
  xvec_divisor center <> 0 /\
  let '(cvec, xvec, yvec) := local_frame center in
  dot3 cvec cvec = 1 /\ dot3 xvec xvec = 1 /\ dot3 yvec yvec = 1 /\
  dot3 cvec xvec = 0 /\ dot3 cvec yvec = 0 /\ dot3 xvec yvec = 0.
Proof.
  intros H. pose proof (xvec_divisor_pos center H) as Hpos.
  assert (Hne : xvec_divisor center <> 0) by lra.
  split; [exact Hne|].
  rewrite local_frame_closed_form by exact Hne. cbv zeta.
  set (t := colat center). set (p := radians (fst center)).
  pose proof (sin2_cos2 p) as Hp. pose proof (sin2_cos2 t) as Ht.
  unfold Rsqr in Hp, Ht. unfold dot3.
  repeat split.
  - replace (sin t * cos p * (sin t * cos p) + sin t * sin p * (sin t * sin p)
             + cos t * cos t)
      with (sin t * sin t * (sin p * sin p + cos p * cos p) + cos t * cos t)
      by ring.
    rewrite Hp. lra.
  - lra.
  - replace (- (cos t * cos p) * - (cos t * cos p)
             + - (cos t * sin p) * - (cos t * sin p) + sin t * sin t)
      with (cos t * cos t * (sin p * sin p + cos p * cos p) + sin t * sin t)
      by ring.
    rewrite Hp. lra.
  - ring.
  - replace (sin t * cos p * - (cos t * cos p)
             + sin t * sin p * - (cos t * sin p) + cos t * sin t)
      with (cos t * sin t * (1 - (sin p * sin p + cos p * cos p))) by ring.
    rewrite Hp. ring.
  - ring.
Qed.

Lemma local_frame_well_defined_witness :
  xvec_divisor (0, -30) <> 0 /\
  let '(cvec, xvec, yvec) := local_frame (0, -30) in
  dot3 cvec cvec = 1 /\ dot3 xvec xvec = 1 /\ dot3 yvec yvec = 1 /\
  dot3 cvec xvec = 0 /\ dot3 cvec yvec = 0 /\ dot3 xvec yvec = 0.
Proof.
  apply (local_frame_well_defined (0, -30)). simpl. split; lra.
Defined.

(** ** The azimuth of [calc_azza] *)

Lemma Int_part_unit (r : R) : 0 <= r < 1 -> Int_part r = 0%Z.
Proof.
  intros [H0 H1]. destruct (base_Int_part r) as [Hle Hgt].
  assert (Hlo : (-1 < Int_part r)%Z) by (apply lt_IZR; simpl; lra).
  assert (Hhi : (Int_part r < 1)%Z) by (apply lt_IZR; simpl; lra).
  lia.
Qed.

Lemma np_mod_small (a b : R) : 0 < b -> 0 <= a < b -> np_mod a b = a.
Proof.
  intros Hb [H0 H1]. unfold np_mod. rewrite Int_part_unit.
  - simpl. ring.
  - split.
    + apply Rmult_le_pos; [exact H0 | left; apply Rinv_0_lt_compat; exact Hb].
    + apply (Rmult_lt_reg_r b); [exact Hb|].
      unfold Rdiv. rewrite Rmult_assoc, Rinv_l by lra. lra.
Qed.

Lemma arctan2_north (y : R) : 0 < y -> arctan2 0 y = 0.
Proof.
  intros Hy. unfold arctan2. destruct (Rlt_dec 0 y) as [_|Hn]; [|contradiction].
  unfold Rdiv. rewrite Rmult_0_l. apply atan_0.
Qed.

Lemma azimuth_north (y : R) : 0 < y -> azimuth 0 y = PI.
Proof.
  intros Hy. unfold azimuth. rewrite arctan2_north by exact Hy.
  rewrite Rplus_0_l. pose proof PI_RGT_0. apply np_mod_small; lra.
Qed.

Lemma azimuth_spec_north (y : R) : 0 < y -> azimuth_spec 0 y = 0.
Proof.
  intros Hy. unfold azimuth_spec. rewrite arctan2_north by exact Hy.
  pose proof PI_RGT_0. apply np_mod_small; lra.
Qed.

Lemma calc_azza_az_nth `{Healpix} (obs : observatory) (Nside : nat)
    (center : R * R) (za_arr az_arr : list R) (pix : list nat) (k : nat) :
  calc_azza obs Nside center = Ok (za_arr, az_arr, pix) ->
  (k < length pix)%nat ->
  nth k az_arr 0
  = azimuth (dot3 (pix2vec Nside (nth k pix 0%nat)) (xvec center))
            (dot3 (pix2vec Nside (nth k pix 0%nat)) (yvec center)).
Proof.
  unfold calc_azza, azza, xvec, yvec.
  destruct (fov obs) as [f|]; [|discriminate].
  destruct (local_frame center) as [[cv xv] yv]. cbn [fst snd].
  intros Heq Hk. injection Heq as _ Haz Hpix. subst az_arr.
  rewrite Hpix in *.
  rewrite (nth_zip_with azimuth _ _ k 0 0 0) by (rewrite !length_map; exact Hk).
  rewrite !(nth_map_lt _ _ k (0, 0, 0)) by (rewrite length_map; exact Hk).
  rewrite !(nth_map_lt _ _ k 0%nat) by exact Hk.
  reflexivity.
Qed.

(** C5, what the code does: for a selected pixel whose direction [d] lies
    due north of the pointing centre ([d.x = 0], [d.y > 0]) [calc_azza]
    returns the azimuth [pi], where [atan2(d.x, d.y)] wrapped into
    [[0, 2 pi)] is 0: the code adds [pi] before it wraps. *)
Theorem calc_azza_north_is_pi `{Healpix} (obs : observatory) (Nside : nat)
    (center : R * R) (za_arr az_arr : list R) (pix : list nat) (k : nat) :
  calc_azza obs Nside center = Ok (za_arr, az_arr, pix) ->
  (k < length pix)%nat ->
  dot3 (pix2vec Nside (nth k pix 0%nat)) (xvec center) = 0 ->
  0 < dot3 (pix2vec Nside (nth k pix 0%nat)) (yvec center) ->
  nth k az_arr 0 = PI /\
  azimuth_spec (dot3 (pix2vec Nside (nth k pix 0%nat)) (xvec center))
               (dot3 (pix2vec Nside (nth k pix 0%nat)) (yvec center)) = 0 /\
  nth k az_arr 0
  <> azimuth_spec (dot3 (pix2vec Nside (nth k pix 0%nat)) (xvec center))
                  (dot3 (pix2vec Nside (nth k pix 0%nat)) (yvec center)).
Proof.
  intros Heq Hk Hx Hy.
  rewrite (calc_azza_az_nth obs Nside center za_arr az_arr pix k Heq Hk).
  rewrite Hx. rewrite azimuth_north, azimuth_spec_north by exact Hy.
  pose proof PI_RGT_0. repeat split; lra.
Qed.

Lemma radians_0 : radians 0 = 0.
Proof. unfold radians. field. Qed.

Lemma colat_equator (l : R) : colat (l, 0) = PI / 2.
Proof. unfold colat, radians. simpl. field. Qed.

Lemma local_frame_origin :
  local_frame (0, 0) = ((1, 0, 0), (0, 1, 0), (0, 0, 1)).
Proof.
  rewrite local_frame_closed_form.
  - cbv zeta. rewrite colat_equator. cbn [fst]. rewrite radians_0.
    rewrite sin_PI2, cos_PI2, sin_0, cos_0.
    repeat f_equal; ring.
  - unfold xvec_divisor. rewrite colat_equator, sin_PI2. lra.
Qed.

(** The observatory of the examples: no baseline yet, a field of view of
    100 degrees. *)
Lemma calc_azza_north_is_pi_witness :
  let obs := set_fov (observatory_init 0 0 [] None) 100 in
  exists za_arr az_arr pix,
    @calc_azza one_pixel obs 2 (0, 0) = Ok (za_arr, az_arr, pix) /\
    nth 0 az_arr 0 = PI.
Proof.
  intros obs.
  destruct (@calc_azza one_pixel obs 2 (0, 0)) as [[[za az] pix]|e] eqn:Heq.
  - exists za, az, pix. split; [reflexivity|].
    assert (Hpix : pix = [12%nat]).
    { unfold calc_azza, azza in Heq. cbn [fov set_fov] in Heq.
      destruct (local_frame (0, 0)) as [[cv xv] yv].
      injection Heq as _ _ Hp. symmetry; exact Hp. }
    subst pix.
    apply (@calc_azza_north_is_pi one_pixel obs 2 (0, 0) za az [12%nat] 0%nat Heq).
    + simpl. lia.
    + unfold xvec. rewrite local_frame_origin. simpl. ring.
    + unfold yvec. rewrite local_frame_origin. simpl. lra.
  - unfold calc_azza in Heq. cbn [fov set_fov] in Heq. discriminate.
Defined.

(** ** Splitting the time axis *)

Lemma firstn_plus {A} (m k : nat) (l : list A) :
  firstn (m + k) l = firstn m l ++ firstn k (skipn m l).
Proof.
  revert l; induction m as [|m IH]; intros l; [reflexivity|].
  destruct l as [|x l]; simpl.
  - rewrite firstn_nil. reflexivity.
  - f_equal. apply IH.
Qed.

Lemma slice_app {A} (l : list A) (a b c : nat) :
  (a <= b)%nat -> (b <= c)%nat -> slice l a b ++ slice l b c = slice l a c.
Proof.
  intros Hab Hbc. unfold slice.
  replace (c - a)%nat with ((b - a) + (c - b))%nat by lia.
  rewrite firstn_plus. f_equal.
  rewrite skipn_skipn. replace (b - a + a)%nat with b by lia. reflexivity.
Qed.

Lemma slice_full {A} (l : list A) : slice l 0 (length l) = l.
Proof. unfold slice. rewrite Nat.sub_0_r. simpl. apply firstn_all. Qed.

Lemma length_slice {A} (l : list A) (a b : nat) :
  (a <= b)%nat -> (b <= length l)%nat -> length (slice l a b) = (b - a)%nat.
Proof.
  intros Hab Hb. unfold slice. rewrite length_firstn, length_skipn. lia.
Qed.

Lemma nth_slice {A} (l : list A) (a b i : nat) (d : A) :
  (i < b - a)%nat -> nth i (slice l a b) d = nth (a + i) l d.
Proof.
  intros Hi. unfold slice. rewrite nth_firstn.
  destruct (i <? b - a)%nat eqn:E; [|apply Nat.ltb_ge in E; lia].
  rewrite nth_skipn. reflexivity.
Qed.

Lemma length_cumsum_from (acc : nat) (l : list nat) :
  length (cumsum_from acc l) = length l.
Proof. revert acc; induction l as [|x l IH]; intros acc; simpl; auto. Qed.

Lemma cumsum_from_repeat (acc x n i : nat) :
  (i < n)%nat -> nth i (cumsum_from acc (repeat x n)) 0%nat = (acc + (i + 1) * x)%nat.
Proof.
  revert acc i; induction n as [|n IH]; intros acc i Hi; [lia|].
  simpl. destruct i as [|i]; [lia|].
  rewrite IH by lia. lia.
Qed.

Lemma cumsum_from_app (acc : nat) (l k : list nat) :
  cumsum_from acc (l ++ k)
  = cumsum_from acc l ++ cumsum_from (acc + fold_right Nat.add 0%nat l) k.
Proof.
  revert acc; induction l as [|x l IH]; intros acc; simpl.
  - f_equal. lia.
  - f_equal. rewrite IH. f_equal. f_equal. lia.
Qed.

Lemma sum_repeat (x n : nat) : fold_right Nat.add 0%nat (repeat x n) = (n * x)%nat.
Proof. induction n as [|n IH]; simpl; [reflexivity | rewrite IH; reflexivity]. Qed.

Lemma div_points_nth (Ntotal Nsections i : nat) :
  (0 < Nsections)%nat -> (i <= Nsections)%nat ->
  nth i (cumsum_from 0
           (0%nat :: repeat (Ntotal / Nsections + 1)%nat (Ntotal mod Nsections)
              ++ repeat (Ntotal / Nsections)%nat
                   (Nsections - Ntotal mod Nsections))) 0%nat
  = div_point Ntotal Nsections i.
Proof.
  intros Hn Hi. unfold div_point.
  pose proof (Nat.mod_upper_bound Ntotal Nsections ltac:(lia)) as Hmod.
  set (q := (Ntotal / Nsections)%nat) in *.
  set (e := (Ntotal mod Nsections)%nat) in *.
  cbn [cumsum_from]. destruct i as [|i]; [simpl; lia|].
  cbn [nth]. rewrite cumsum_from_app, sum_repeat.
  destruct (Nat.lt_ge_cases i e) as [Hlt|Hge].
  - rewrite app_nth1 by (rewrite length_cumsum_from, repeat_length; exact Hlt).
    rewrite cumsum_from_repeat by exact Hlt. lia.
  - rewrite app_nth2 by (rewrite length_cumsum_from, repeat_length; exact Hge).
    rewrite length_cumsum_from, repeat_length.
    rewrite cumsum_from_repeat by lia. nia.
Qed.

Lemma div_point_0 (Ntotal Nsections : nat) : div_point Ntotal Nsections 0 = 0%nat.
Proof. reflexivity. Qed.

Lemma div_point_last (Ntotal Nsections : nat) :
  (0 < Nsections)%nat -> div_point Ntotal Nsections Nsections = Ntotal.
Proof.
  intros Hn. unfold div_point.
  pose proof (Nat.mod_upper_bound Ntotal Nsections ltac:(lia)) as Hmod.
  pose proof (Nat.div_mod_eq Ntotal Nsections) as Hdm.
  rewrite Nat.min_r by lia. lia.
Qed.

Lemma div_point_mono (Ntotal Nsections i : nat) :
  (div_point Ntotal Nsections i <= div_point Ntotal Nsections (S i))%nat.
Proof.
  unfold div_point.
  set (q := (Ntotal / Nsections)%nat). set (e := (Ntotal mod Nsections)%nat).
  nia.
Qed.

Lemma div_point_le (Ntotal Nsections i : nat) :
  (0 < Nsections)%nat -> (i <= Nsections)%nat ->
  (div_point Ntotal Nsections i <= Ntotal)%nat.
Proof.
  intros Hn Hi. rewrite <- (div_point_last Ntotal Nsections Hn) at 2.
  unfold div_point.
  set (q := (Ntotal / Nsections)%nat). set (e := (Ntotal mod Nsections)%nat).
  nia.
Qed.

Lemma array_split_sections {A} (ary : list A) (Nsections : nat) :
  (0 < Nsections)%nat ->
  array_split ary Nsections
  = Ok (map (fun i => slice ary (div_point (length ary) Nsections i)
                            (div_point (length ary) Nsections (S i)))
            (seq 0 Nsections)).
Proof.
  intros Hn. unfold array_split.
  destruct (Nsections =? 0)%nat eqn:E; [apply Nat.eqb_eq in E; lia|].
  f_equal. apply map_ext_in. intros i Hi. apply in_seq in Hi.
  rewrite !div_points_nth by lia. replace (i + 1)%nat with (S i) by lia.
  reflexivity.
Qed.

(** ** The results queue *)

Lemma concat_insert_perm {A} (ws : list (list A)) (i : nat) (x : A)
    (rest : list A) :
  ws !! i = Some (x :: rest) ->
  Permutation (concat ws) (x :: concat (<[i := rest]> ws)).
Proof.
  revert i; induction ws as [|w ws IH]; intros [|i] Hi; simpl in *;
    try discriminate.
  - injection Hi as ->. reflexivity.
  - rewrite (IH i Hi). symmetry. apply Permutation_middle.
Qed.

(** Whatever the schedule, the queue holds what the workers put. *)
Lemma run_schedule_perm {A} (sched : list nat) (ws : list (list A)) :
  Permutation (run_schedule sched ws) (concat ws).
Proof.
  revert ws; induction sched as [|i sched IH]; intros ws; simpl.
  - reflexivity.
  - destruct (ws !! i) as [[|x rest]|] eqn:Hi; try apply IH.
    rewrite (concat_insert_perm ws i x rest Hi).
    apply perm_skip, IH.
Qed.

Lemma drain_nil {A} : drain (@nil A) = None.
Proof. reflexivity. Qed.

Lemma drain_nonempty {A} (q : list A) : q <> [] -> drain q = Some q.
Proof.
  induction q as [|x q IH]; intros Hne; [contradiction|].
  simpl. destruct q as [|y q]; [reflexivity|].
  rewrite IH by discriminate. reflexivity.
Qed.

(** ** Sorting by baseline, then time *)

Lemma key_le_total (a b : nat * nat) : key_le a b = false -> key_le b a = true.
Proof.
  unfold key_le. destruct a as [a1 a2], b as [b1 b2]; simpl.
  rewrite !orb_false_iff, !orb_true_iff, !andb_false_iff, !andb_true_iff,
    !Nat.ltb_lt, !Nat.ltb_ge, !Nat.eqb_eq, !Nat.eqb_neq, !Nat.leb_le, !Nat.leb_gt.
  lia.
Qed.

Lemma key_le_trans (a b c : nat * nat) :
  key_le a b = true -> key_le b c = true -> key_le a c = true.
Proof.
  unfold key_le. destruct a as [a1 a2], b as [b1 b2], c as [c1 c2]; simpl.
  rewrite !orb_true_iff, !andb_true_iff, !Nat.ltb_lt, !Nat.eqb_eq, !Nat.leb_le.
  lia.
Qed.

Lemma key_le_antisym (a b : nat * nat) :
  key_le a b = true -> key_le b a = true -> a = b.
Proof.
  unfold key_le. destruct a as [a1 a2], b as [b1 b2]; simpl.
  rewrite !orb_true_iff, !andb_true_iff, !Nat.ltb_lt, !Nat.eqb_eq, !Nat.leb_le.
  intros H1 H2. f_equal; lia.
Qed.

Lemma insert_by_perm (key : nat -> nat * nat) (i : nat) (l : list nat) :
  Permutation (i :: l) (insert_by key i l).
Proof.
  induction l as [|j l IH]; simpl; [reflexivity|].
  destruct (key_le (key i) (key j)); [reflexivity|].
  rewrite perm_swap. apply perm_skip, IH.
Qed.

Lemma insert_by_sorted (key : nat -> nat * nat) (i : nat) (l : list nat) :
  StronglySorted (fun a b => key_le (key a) (key b) = true) l ->
  StronglySorted (fun a b => key_le (key a) (key b) = true) (insert_by key i l).
Proof.
  induction 1 as [|j l Hl IH Hj]; simpl.
  - constructor; constructor.
  - destruct (key_le (key i) (key j)) eqn:E.
    + constructor; [constructor; assumption|].
      constructor; [exact E|].
      eapply List.Forall_impl; [|exact Hj]. intros a Ha.
      eapply key_le_trans; eassumption.
    + constructor; [exact IH|].
      rewrite <- (insert_by_perm key i l).
      constructor; [apply key_le_total; exact E | exact Hj].
Qed.

Lemma lexsort_perm (time_inds baseline_inds : list nat) :
  Permutation (seq 0 (length time_inds)) (lexsort time_inds baseline_inds).
Proof.
  unfold lexsort. induction (seq 0 (length time_inds)) as [|i l IH]; simpl.
  - reflexivity.
  - rewrite <- insert_by_perm. apply perm_skip, IH.
Qed.

Lemma lexsort_sorted (time_inds baseline_inds : list nat) :
  StronglySorted
    (fun a b => key_le (nth a baseline_inds 0%nat, nth a time_inds 0%nat)
                       (nth b baseline_inds 0%nat, nth b time_inds 0%nat) = true)
    (lexsort time_inds baseline_inds).
Proof.
  unfold lexsort. induction (seq 0 (length time_inds)) as [|i l IH]; simpl.
  - constructor.
  - apply (insert_by_sorted
             (fun i => (nth i baseline_inds 0%nat, nth i time_inds 0%nat))).
    exact IH.
Qed.

Lemma StronglySorted_map {A B} (R : B -> B -> Prop) (f : A -> B) (l : list A) :
  StronglySorted (fun a b => R (f a) (f b)) l -> StronglySorted R (map f l).
Proof.
  induction 1 as [|a l Hl IH Ha]; simpl; constructor; [exact IH|].
  apply List.Forall_map. exact Ha.
Qed.

Lemma map_nth_seq {A} (l : list A) (d : A) :
  map (fun i => nth i l d) (seq 0 (length l)) = l.
Proof.
  apply (nth_ext _ _ d d).
  - rewrite length_map, length_seq. reflexivity.
  - intros n Hn. rewrite length_map, length_seq in Hn.
    apply (nth_map_seq (fun i => nth i l d)). exact Hn.
Qed.

(** Two sorted lists with the same entries, no two of them with one key,
    are the same list. *)
Lemma sorted_perm_unique (l1 l2 : list entry) :
  StronglySorted entry_le l1 -> StronglySorted entry_le l2 ->
  Permutation l1 l2 -> List.NoDup (map entry_key l1) -> l1 = l2.
Proof.
  intros H1; revert l2; induction H1 as [|a l1 Hs1 IH Ha]; intros l2 H2 Hp Hnd.
  - apply Permutation_nil in Hp. subst. reflexivity.
  - destruct H2 as [|b l2 Hs2 Hb].
    + symmetry in Hp. apply Permutation_nil in Hp. discriminate.
    + assert (Hab : a = b).
      { assert (Hina : In a (b :: l2))
          by (apply (Permutation_in a Hp); left; reflexivity).
        destruct Hina as [Heq|Hina]; [symmetry; exact Heq|].
        assert (Hinb : In b (a :: l1))
          by (apply (Permutation_in b (Permutation_sym Hp)); left; reflexivity).
        destruct Hinb as [Heq|Hinb]; [exact Heq|].
        rewrite List.Forall_forall in Ha, Hb.
        pose proof (key_le_antisym _ _ (Ha b Hinb) (Hb a Hina)) as Hk.
        simpl in Hnd. inversion Hnd as [|k ks Hnotin Hnd']; subst.
        exfalso. apply Hnotin. rewrite Hk. apply in_map. exact Hinb. }
      subst b. f_equal. apply IH.
      * exact Hs2.
      * eapply Permutation_cons_inv; exact Hp.
      * simpl in Hnd. inversion Hnd; assumption.
Qed.

(** ** One worker *)

Lemma npix2nside_ok (npix Nside : nat) :
  npix2nside npix = Ok Nside -> npix = (12 * Nside * Nside)%nat.
Proof.
  unfold npix2nside.
  destruct (12 * Nat.sqrt (npix / 12) * Nat.sqrt (npix / 12) =? npix)%nat eqn:E;
    [|discriminate].
  intros Heq. injection Heq as <-. apply Nat.eqb_eq in E. symmetry. exact E.
Qed.

Lemma azza_pix_in_range (hp : Healpix) (fv : R) (Nside : nat) (c : R * R) :
  query_disc_in_range hp ->
  List.Forall (fun p => (p < 12 * Nside * Nside)%nat) (snd (azza fv Nside c)).
Proof.
  intros Hr. unfold azza. destruct (local_frame c) as [[cv xv] yv]. simpl.
  apply List.Forall_forall. intros p Hp. exact (Hr _ _ _ _ Hp).
Qed.

Lemma select_pixels_ok (sh : shell) (pix : list nat) :
  List.Forall (fun p => (p < shNpix sh)%nat) pix ->
  select_pixels sh pix = Ok (pixel_rows sh pix).
Proof.
  intros Hp. unfold select_pixels.
  replace (forallb (fun p => (p <? shNpix sh)%nat) pix) with true; [reflexivity|].
  symmetry. apply forallb_forall. intros p Hin. apply Nat.ltb_lt.
  rewrite List.Forall_forall in Hp. apply Hp. exact Hin.
Qed.

(** [calc_azza] returns one zenith angle and one azimuth per pixel. *)
Lemma azza_lengths `{Healpix} (fv : R) (Nside : nat) (c : R * R)
    (za az : list R) (pix : list nat) :
  azza fv Nside c = (za, az, pix) ->
  length za = length pix /\ length az = length pix.
Proof.
  unfold azza. destruct (local_frame c) as [[cv xv] yv].
  intros Heq. injection Heq as <- <- <-.
  rewrite length_zip_with_same; rewrite !length_map; auto.
Qed.

(** The loop over the baselines reads the two angle arrays, which have
    one length, and leaves them as they are, so every baseline sees the
    same angles. *)
Lemma baseline_loop_ok (sh : shell) (fr : list R) (pix : list nat)
    (beam_cube : list (list R)) (t : nat) (h : heap) (az za : list R)
    (bls : list (nat * baseline)) :
  h !! az_ref = Some az -> h !! za_ref = Some za ->
  length az = length za ->
  List.Forall (fun p => (p < shNpix sh)%nat) pix ->
  baseline_loop sh fr pix beam_cube (Some t) h bls
  = (map (fun ib =>
            {| e_ti := t; e_bi := fst ib;
               e_vis := vis_sum sh (pixel_rows sh pix) beam_cube
                          (make_fringe az za fr (enu (snd ib))) |}) bls,
     None).
Proof.
  intros Ha Hz Hlen Hp. induction bls as [|[bi bl] rest IH]; [reflexivity|].
  cbn [baseline_loop].
  rewrite (get_fringe_radians bl _ _ fr h az za Ha Hz Hlen).
  unfold vis_of. rewrite (select_pixels_ok sh pix Hp). rewrite IH. reflexivity.
Qed.

Lemma time_step_ok `{Healpix} (obs : observatory) (Nside : nat) (sh : shell)
    (t : nat) (c : R * R) (fv : R) (b : analyticbeam) (fr : list R) :
  fov obs = Some fv -> beam obs = Some b -> freqs obs = Some fr ->
  List.Forall (fun p => (p < shNpix sh)%nat) (snd (azza fv Nside c)) ->
  time_step obs Nside sh (Some t) c
  = (map (fun ib =>
            {| e_ti := t; e_bi := fst ib;
               e_vis := visibility fv b fr Nside sh c (snd ib) |})
         (enumerate (array obs)),
     None).
Proof.
  intros Hf Hb Hfr Hp. unfold time_step, calc_azza, visibility.
  rewrite Hf, Hb, Hfr.
  destruct (azza fv Nside c) as [[za az] pix] eqn:Hazza. cbn [snd] in Hp.
  destruct (azza_lengths fv Nside c za az pix Hazza) as [Hza Haz].
  apply (baseline_loop_ok sh fr pix _ t _ az za).
  - unfold heap, az_ref, za_ref. rewrite lookup_insert_ne by discriminate.
    apply lookup_insert_eq.
  - unfold heap. apply lookup_insert_eq.
  - congruence.
  - exact Hp.
Qed.

Lemma time_step_dead `{Healpix} (obs : observatory) (Nside : nat)
    (sh : shell) (ti : option nat) (c : R * R) :
  fov obs = None \/ beam obs = None ->
  exists e, time_step obs Nside sh ti c = ([], Some e).
Proof.
  intros Hd. unfold time_step, calc_azza.
  destruct (fov obs) as [fv|]; [|eexists; reflexivity].
  destruct (azza fv Nside c) as [[za az] pix].
  destruct Hd as [Hd|Hd]; [discriminate|]. rewrite Hd.
  eexists; reflexivity.
Qed.

Lemma vis_calc_loop_ok `{Healpix} (obs : observatory) (Nside : nat)
    (sh : shell) (tinds : list nat) (centers : list (R * R))
    (F : nat -> R * R -> list entry) (a : nat) :
  (forall t c, time_step obs Nside sh (Some t) c = (F t c, None)) ->
  forall (cs : list (R * R)) (k : nat),
    (forall j, (j < length cs)%nat ->
               nth_error tinds (k + j) = Some (a + k + j)%nat) ->
    (forall j, (j < length cs)%nat ->
               nth j cs (0, 0) = nth (a + k + j) centers (0, 0)) ->
    vis_calc_loop obs Nside sh tinds (combine (seq k (length cs)) cs)
    = (flat_map (fun t => F t (nth t centers (0, 0)))
                (seq (a + k) (length cs)), None).
Proof.
  intros HF. induction cs as [|c cs IH]; intros k Ht Hc; [reflexivity|].
  cbn [length seq combine vis_calc_loop flat_map].
  assert (Ht0 : nth_error tinds k = Some (a + k)%nat).
  { specialize (Ht 0%nat ltac:(simpl; lia)).
    replace (k + 0)%nat with k in Ht by lia.
    replace (a + k + 0)%nat with (a + k)%nat in Ht by lia. exact Ht. }
  assert (Hc0 : nth (a + k) centers (0, 0) = c).
  { specialize (Hc 0%nat ltac:(simpl; lia)). simpl in Hc.
    replace (a + k + 0)%nat with (a + k)%nat in Hc by lia.
    symmetry. exact Hc. }
  rewrite Ht0, HF, Hc0, (IH (S k)).
  - replace (a + S k)%nat with (S (a + k)) by lia. reflexivity.
  - intros j Hj. specialize (Ht (S j) ltac:(simpl; lia)).
    replace (S k + j)%nat with (k + S j)%nat by lia. rewrite Ht. f_equal. lia.
  - intros j Hj. specialize (Hc (S j) ltac:(simpl; lia)). simpl in Hc.
    rewrite Hc. f_equal. lia.
Qed.

Lemma vis_calc_loop_dead `{Healpix} (obs : observatory) (Nside : nat)
    (sh : shell) (tinds : list nat) (items : list (nat * (R * R))) :
  (forall ti c, exists e, time_step obs Nside sh ti c = ([], Some e)) ->
  fst (vis_calc_loop obs Nside sh tinds items) = [].
Proof.
  intros Hd. destruct items as [|[count c] rest]; [reflexivity|].
  cbn [vis_calc_loop].
  destruct (Hd (nth_error tinds count) c) as [e He]. rewrite He. reflexivity.
Qed.

(** A worker that is given the section [[a, b)] of the time axis puts
    the entries of the times [a], ..., [b - 1] in this order. *)
Lemma vis_calc_section_ok `{Healpix} (obs : observatory) (Nside : nat)
    (sh : shell) (centers : list (R * R))
    (F : nat -> R * R -> list entry) (a b : nat) :
  (forall t c, time_step obs Nside sh (Some t) c = (F t c, None)) ->
  (a <= b)%nat -> (b <= length centers)%nat ->
  fst (vis_calc obs Nside (slice centers a b)
         (slice (seq 0 (length centers)) a b) sh)
  = flat_map (fun t => F t (nth t centers (0, 0))) (seq a (b - a)).
Proof.
  intros HF Hab Hb. unfold vis_calc.
  pose proof (length_slice centers a b Hab Hb) as Hlen.
  destruct (length (slice centers a b) =? 0)%nat eqn:E.
  - apply Nat.eqb_eq in E. rewrite <- Hlen, E. reflexivity.
  - unfold enumerate.
    rewrite (vis_calc_loop_ok obs Nside sh _ centers F a HF).
    + rewrite Nat.add_0_r, Hlen. reflexivity.
    + intros j Hj. rewrite Hlen in Hj. simpl.
      rewrite (nth_error_nth' _ 0%nat)
        by (rewrite length_slice; rewrite ?length_seq; lia).
      rewrite nth_slice by exact Hj. rewrite seq_nth by lia.
      f_equal. lia.
    + intros j Hj. rewrite Hlen in Hj. rewrite nth_slice by exact Hj.
      f_equal. lia.
Qed.

Lemma vis_calc_dead `{Healpix} (obs : observatory) (Nside : nat)
    (sh : shell) (pcents : list (R * R)) (tinds : list nat) :
  (forall ti c, exists e, time_step obs Nside sh ti c = ([], Some e)) ->
  fst (vis_calc obs Nside pcents tinds sh) = [].
Proof.
  intros Hd. unfold vis_calc.
  destruct (length pcents =? 0)%nat; [reflexivity|].
  apply vis_calc_loop_dead. exact Hd.
Qed.

(** ** All workers together *)

Lemma flat_map_sections {A} (G : nat -> list A) (d : nat -> nat) (n : nat) :
  (forall i, (i < n)%nat -> (d i <= d (S i))%nat) ->
  (d 0%nat <= d n)%nat /\
  concat (map (fun i => flat_map G (seq (d i) (d (S i) - d i))) (seq 0 n))
  = flat_map G (seq (d 0%nat) (d n - d 0%nat)).
Proof.
  induction n as [|n IH]; intros Hd.
  - split; [lia|]. rewrite Nat.sub_diag. reflexivity.
  - destruct IH as [Hle IH]; [intros i Hi; apply Hd; lia|].
    pose proof (Hd n ltac:(lia)) as Hn. split; [lia|].
    rewrite seq_S, map_app, concat_app, IH. simpl. rewrite app_nil_r.
    rewrite <- flat_map_app. f_equal.
    replace (d (S n) - d 0%nat)%nat
      with ((d n - d 0%nat) + (d (S n) - d n))%nat by lia.
    rewrite seq_app. repeat f_equal. lia.
Qed.

Lemma flat_map_cons_perm {A B} (f : A -> B) (g : A -> list B) (l : list A) :
  Permutation (flat_map (fun x => f x :: g x) l) (map f l ++ flat_map g l).
Proof.
  induction l as [|x l IH]; simpl; [reflexivity|].
  apply perm_skip. rewrite IH. apply Permutation_app_swap_app.
Qed.

Lemma flat_map_transpose {A B C} (f : A -> B -> C) (xs : list A) (ys : list B) :
  Permutation (flat_map (fun x => map (f x) ys) xs)
              (flat_map (fun y => map (fun x => f x y) xs) ys).
Proof.
  induction xs as [|x xs IH]; simpl.
  - induction ys as [|y ys IHy]; simpl; [reflexivity | exact IHy].
  - rewrite IH. symmetry.
    apply (flat_map_cons_perm (f x) (fun y => map (fun x' => f x' y) xs)).
Qed.

Lemma enumerate_as_seq {A} (l : list A) (d : A) :
  enumerate l = map (fun i => (i, nth i l d)) (seq 0 (length l)).
Proof.
  unfold enumerate. apply (nth_ext _ _ (0%nat, d) (0%nat, d)).
  - rewrite length_combine, length_map, length_seq. lia.
  - intros n Hn. rewrite length_combine, length_seq, Nat.min_id in Hn.
    rewrite combine_nth by (rewrite length_seq; reflexivity).
    rewrite seq_nth by exact Hn.
    rewrite (nth_map_seq (fun i => (i, nth i l d))) by exact Hn.
    reflexivity.
Qed.

Lemma seq_as_map (a n : nat) :
  seq a n = map (fun t => (a + t)%nat) (seq 0 n).
Proof.
  revert a; induction n as [|n IH]; intros a; [reflexivity|].
  simpl. f_equal; [lia|].
  rewrite <- (seq_shift n 0), map_map, (IH (S a)).
  apply map_ext. intros t. lia.
Qed.

Lemma flat_map_seq_index {C} (g : nat -> nat -> C) (B T : nat) :
  flat_map (fun b => map (fun t => g b t) (seq 0 T)) (seq 0 B)
  = map (fun r => g (r / T)%nat (r mod T)%nat) (seq 0 (B * T)).
Proof.
  induction B as [|B IH]; [reflexivity|].
  rewrite seq_S, flat_map_app, IH. simpl. rewrite app_nil_r.
  replace (T + B * T)%nat with (B * T + T)%nat by lia.
  rewrite seq_app, map_app. f_equal. simpl.
  rewrite (seq_as_map (B * T) T), map_map. apply map_ext_in. intros t Ht. apply in_seq in Ht.
  assert (HT : T <> 0%nat) by lia.
  replace (B * T + t)%nat with (t + B * T)%nat by lia.
  rewrite Nat.div_add by exact HT. rewrite Nat.Div0.mod_add.
  rewrite Nat.div_small, Nat.mod_small by lia. reflexivity.
Qed.

(** ** The canonical order *)

Lemma StronglySorted_map_seq {A} (R : A -> A -> Prop) (f : nat -> A)
    (a n : nat) :
  (forall i j, (a <= i)%nat -> (i < j)%nat -> (j < a + n)%nat -> R (f i) (f j)) ->
  StronglySorted R (map f (seq a n)).
Proof.
  revert a; induction n as [|n IH]; intros a Hm; simpl; constructor.
  - apply IH. intros i j Hi Hij Hj. apply Hm; lia.
  - apply List.Forall_forall. intros x Hx. apply in_map_iff in Hx.
    destruct Hx as [j [<- Hj]]. apply in_seq in Hj. apply Hm; lia.
Qed.

Lemma index_key_le (T i j : nat) :
  (i < j)%nat -> key_le ((i / T)%nat, (i mod T)%nat) ((j / T)%nat, (j mod T)%nat) = true.
Proof.
  intros Hij. unfold key_le. cbn [fst snd].
  pose proof (Nat.Div0.div_le_mono i j T ltac:(lia)) as Hdiv.
  pose proof (Nat.div_mod_eq i T) as Hi. pose proof (Nat.div_mod_eq j T) as Hj.
  apply orb_true_iff.
  destruct (Nat.eq_dec (i / T)%nat (j / T)%nat) as [Heq|Hne].
  - right. apply andb_true_iff. split; [apply Nat.eqb_eq; exact Heq|].
    apply Nat.leb_le. rewrite Heq in Hi. lia.
  - left. apply Nat.ltb_lt. lia.
Qed.

Lemma index_key_inj (T i j : nat) :
  ((i / T)%nat, (i mod T)%nat) = ((j / T)%nat, (j mod T)%nat) -> i = j.
Proof.
  intros Heq. injection Heq as Hd Hm.
  rewrite (Nat.div_mod_eq i T), (Nat.div_mod_eq j T), Hd, Hm. reflexivity.
Qed.

Lemma canonical_sorted `{Healpix} fv b fr Nside sh centers arr :
  StronglySorted entry_le (canonical_entries fv b fr Nside sh centers arr).
Proof.
  unfold canonical_entries. apply StronglySorted_map_seq.
  intros i j _ Hij _. unfold entry_le, entry_key, canonical_entry. cbn [e_bi e_ti].
  apply index_key_le. exact Hij.
Qed.

Lemma canonical_keys_nodup `{Healpix} fv b fr Nside sh centers arr :
  List.NoDup (map entry_key (canonical_entries fv b fr Nside sh centers arr)).
Proof.
  unfold canonical_entries. rewrite map_map.
  apply Finite.Injective_map_NoDup_in; [|apply seq_NoDup].
  intros x y _ _. unfold entry_key, canonical_entry. cbn [e_bi e_ti].
  apply index_key_inj.
Qed.

Lemma gather_map {A B} (f : A -> B) (d : A) (l : list A) (srt : list nat) :
  gather (f d) (map f l) srt = map f (gather d l srt).
Proof.
  unfold gather. rewrite map_map. apply map_ext. intros i. apply map_nth.
Qed.

Lemma StronglySorted_weaken {A} (R R' : A -> A -> Prop) (l : list A) :
  (forall a b, R a b -> R' a b) -> StronglySorted R l -> StronglySorted R' l.
Proof.
  intros HR. induction 1 as [|a l Hl IH Ha]; constructor; [exact IH|].
  eapply List.Forall_impl; [|exact Ha]. intros x. apply HR.
Qed.

(** Indexing the queue's entries by [lexsort] sorts them. *)
Lemma gather_lexsort (got : list entry) :
  StronglySorted entry_le
    (gather no_entry got (lexsort (map e_ti got) (map e_bi got))) /\
  Permutation got
    (gather no_entry got (lexsort (map e_ti got) (map e_bi got))).
Proof.
  split.
  - unfold gather. apply StronglySorted_map.
    eapply StronglySorted_weaken; [|apply lexsort_sorted].
    intros a b Hab. unfold entry_le, entry_key.
    rewrite <- !(map_nth e_bi got no_entry), <- !(map_nth e_ti got no_entry).
    exact Hab.
  - unfold gather. rewrite <- (map_nth_seq got no_entry) at 1.
    apply Permutation_map.
    rewrite <- (length_map e_ti got). apply lexsort_perm.
Qed.

Lemma sorted_queue_is_canonical `{Healpix} fv b fr Nside sh centers arr
    (got : list entry) :
  Permutation got (canonical_entries fv b fr Nside sh centers arr) ->
  gather no_entry got (lexsort (map e_ti got) (map e_bi got))
  = canonical_entries fv b fr Nside sh centers arr.
Proof.
  intros Hp. destruct (gather_lexsort got) as [Hs Hg]. symmetry.
  apply sorted_perm_unique.
  - apply canonical_sorted.
  - exact Hs.
  - rewrite <- Hp. exact Hg.
  - apply canonical_keys_nodup.
Qed.

(** ** The controller *)

Lemma concat_all_nil {A} (l : list (list A)) :
  (forall x, In x l -> x = []) -> concat l = [].
Proof.
  induction l as [|x l IH]; intros Hl; [reflexivity|].
  simpl. rewrite (Hl x) by (left; reflexivity).
  apply IH. intros y Hy. apply Hl. right. exact Hy.
Qed.

Lemma queue_of_nothing {A} (sched : list nat) (ws : list (list A)) :
  concat ws = [] -> run_schedule sched ws = [].
Proof.
  intros Hc. apply Permutation_nil. rewrite <- Hc. symmetry.
  apply run_schedule_perm.
Qed.

(** The sections of the workers cover the time axis once, in order. *)
Lemma workers_entries_ok `{Healpix} (obs : observatory) (Nside : nat)
    (sh : shell) (centers : list (R * R)) (F : nat -> R * R -> list entry)
    (Nprocs : nat) :
  (0 < Nprocs)%nat ->
  (forall t c, time_step obs Nside sh (Some t) c = (F t c, None)) ->
  concat
    (map fst
       (map (fun pi =>
               vis_calc obs Nside
                 (nth pi
                    (map (fun i =>
                            slice centers
                              (div_point (length centers) Nprocs i)
                              (div_point (length centers) Nprocs (S i)))
                         (seq 0 Nprocs)) [])
                 (nth pi
                    (map (fun i =>
                            slice (seq 0 (length centers))
                              (div_point (length (seq 0 (length centers)))
                                 Nprocs i)
                              (div_point (length (seq 0 (length centers)))
                                 Nprocs (S i)))
                         (seq 0 Nprocs)) [])
                 sh)
            (seq 0 Nprocs)))
  = flat_map (fun t => F t (nth t centers (0, 0))) (seq 0 (length centers)).
Proof.
  intros Hn HF. rewrite length_seq, map_map.
  set (dp := div_point (length centers) Nprocs).
  rewrite (map_ext_in _
             (fun pi => flat_map (fun t => F t (nth t centers (0, 0)))
                          (seq (dp pi) (dp (S pi) - dp pi)))).
  - destruct (flat_map_sections (fun t => F t (nth t centers (0, 0))) dp Nprocs)
      as [_ Heq]; [intros i _; apply div_point_mono|].
    rewrite Heq. unfold dp. rewrite div_point_0, div_point_last by exact Hn.
    rewrite Nat.sub_0_r. reflexivity.
  - intros pi Hpi. apply in_seq in Hpi.
    rewrite !(nth_map_seq _ Nprocs pi) by lia.
    apply vis_calc_section_ok;
      [exact HF | apply div_point_mono | apply div_point_le; lia].
Qed.

Lemma workers_entries_dead `{Healpix} (obs : observatory) (Nside : nat)
    (sh : shell) (pl : list (list (R * R))) (tl : list (list nat))
    (Nprocs : nat) (sched : list nat) :
  fov obs = None \/ beam obs = None ->
  run_schedule sched
    (map fst
       (map (fun pi => vis_calc obs Nside (nth pi pl []) (nth pi tl []) sh)
            (seq 0 Nprocs)))
  = [].
Proof.
  intros Hd. apply queue_of_nothing, concat_all_nil.
  intros x Hx. rewrite map_map in Hx. apply in_map_iff in Hx.
  destruct Hx as [pi [<- _]]. apply vis_calc_dead.
  intros ti c. apply time_step_dead. exact Hd.
Qed.

(** The entries of all times, time after time, are those of the
    canonical order, baseline after baseline. *)
Lemma time_major_perm_canonical `{Healpix} (fv : R) (b : analyticbeam)
    (fr : list R) (Nside : nat) (sh : shell) (centers : list (R * R))
    (arr : list baseline) :
  Permutation
    (flat_map
       (fun t =>
          map (fun ib =>
                 {| e_ti := t; e_bi := fst ib;
                    e_vis := visibility fv b fr Nside sh
                               (nth t centers (0, 0)) (snd ib) |})
              (enumerate arr))
       (seq 0 (length centers)))
    (canonical_entries fv b fr Nside sh centers arr).
Proof.
  unfold canonical_entries.
  rewrite (enumerate_as_seq arr {| enu := [] |}).
  pose (g := fun (bi t : nat) =>
               {| e_ti := t; e_bi := bi;
                  e_vis := visibility fv b fr Nside sh (nth t centers (0, 0))
                             (nth bi arr {| enu := [] |}) |}).
  etransitivity;
    [|apply Permutation_refl';
      exact (flat_map_seq_index g (length arr) (length centers))].
  etransitivity; [|apply (flat_map_transpose (fun t bi => g bi t))].
  apply Permutation_refl'. apply flat_map_ext. intros t.
  rewrite map_map. reflexivity.
Qed.

(** Whatever the worker count and the schedule, [make_visibilities] comes
    to [visibilities_in_order]. *)
Lemma make_visibilities_in_order (hp : Healpix) (obs : observatory)
    (sh : shell) (Nprocs : nat) (sched : list nat) :
  query_disc_in_range hp -> (1 <= Nprocs)%nat ->
  @make_visibilities hp obs sh Nprocs sched = @visibilities_in_order hp obs sh.
Proof.
  intros Hr Hp. unfold make_visibilities, visibilities_in_order.
  destruct (Nfreqs obs) as [n|]; [|reflexivity].
  destruct (freqs obs) as [fr|] eqn:Hfr; [|reflexivity].
  destruct (negb (shNfreqs sh =? n)%nat); [reflexivity|].
  destruct (npix2nside (shNpix sh)) as [Nside|e] eqn:Hns; [|reflexivity].
  destruct (shNpix sh =? 0)%nat; [reflexivity|].
  destruct (pointing obs) as [[times centers]|]; [|reflexivity].
  cbv zeta. rewrite !array_split_sections by lia.
  destruct (fov obs) as [fv|] eqn:Hfov;
    [destruct (beam obs) as [b|] eqn:Hb|].
  - set (F := fun (t : nat) (c : R * R) =>
                map (fun ib =>
                       {| e_ti := t; e_bi := fst ib;
                          e_vis := visibility fv b fr Nside sh c (snd ib) |})
                    (enumerate (array obs))).
    assert (HF : forall t c, time_step obs Nside sh (Some t) c = (F t c, None)).
    { intros t c. apply time_step_ok; try assumption.
      rewrite (npix2nside_ok _ _ Hns). apply azza_pix_in_range. exact Hr. }
    match goal with
    | |- context [drain ?q] => set (vis_array := q)
    end.
    assert (Hq : Permutation vis_array
                   (canonical_entries fv b fr Nside sh centers (array obs))).
    { unfold vis_array. rewrite run_schedule_perm.
      rewrite (workers_entries_ok obs Nside sh centers F Nprocs) by (lia || exact HF).
      apply time_major_perm_canonical. }
    clearbody vis_array.
    destruct (canonical_entries fv b fr Nside sh centers (array obs))
      as [|e0 rest] eqn:Hcanon.
    + apply Permutation_sym, Permutation_nil in Hq. rewrite Hq. reflexivity.
    + rewrite drain_nonempty
        by (intros Hnil; rewrite Hnil in Hq; apply Permutation_nil in Hq;
            discriminate).
      rewrite (gather_map e_ti no_entry), (gather_map e_bi no_entry).
      change (Vis1 []) with (e_vis no_entry).
      rewrite (gather_map e_vis no_entry).
      rewrite (sorted_queue_is_canonical fv b fr Nside sh centers (array obs))
        by (rewrite Hcanon; exact Hq).
      rewrite Hcanon. reflexivity.
  - rewrite workers_entries_dead by (right; exact Hb). reflexivity.
  - rewrite workers_entries_dead by (left; exact Hfov). reflexivity.
Qed.

Lemma one_pixel_in_range : query_disc_in_range one_pixel.
Proof.
  intros Nside v r p. cbn [query_disc one_pixel].
  destruct (2 <=? Nside)%nat eqn:E.
  - intros [Hp|Hp]; [|destruct Hp]. subst p. apply Nat.leb_le in E. nia.
  - intros Hp. destruct Hp.
Qed.

(** C3: on one input, with pixels that [query_disc] takes from the
    sphere, any two worker counts of at least one and any two schedules
    of the workers give the same result: the same visibilities, times and
    baselines, or the same failure. *)
Theorem make_visibilities_deterministic (hp : Healpix) (obs : observatory)
    (sh : shell) (Nprocs1 Nprocs2 : nat) (sched1 sched2 : list nat) :
  query_disc_in_range hp ->
  (1 <= Nprocs1)%nat -> (1 <= Nprocs2)%nat ->
  @make_visibilities hp obs sh Nprocs1 sched1
  = @make_visibilities hp obs sh Nprocs2 sched2.
Proof.
  intros Hr H1 H2.
  rewrite (make_visibilities_in_order hp obs sh Nprocs1 sched1 Hr H1).
  rewrite (make_visibilities_in_order hp obs sh Nprocs2 sched2 Hr H2).
  reflexivity.
Qed.

Lemma make_visibilities_deterministic_witness :
  @make_visibilities one_pixel example_obs example_shell 1 []
  = @make_visibilities one_pixel example_obs example_shell 2 [1; 0; 1]%nat.
Proof.
  apply (make_visibilities_deterministic one_pixel example_obs example_shell
           1 2 [] [1; 0; 1]%nat one_pixel_in_range); lia.
Defined.

(** ** Configuration errors *)

(** X21: a shell whose frequency axis is not as long as the
    observatory's frequency list makes [make_visibilities] raise
    [AssertionError], whatever the worker count and before any worker
    starts. *)
Lemma make_visibilities_frequency_mismatch `{Healpix} (obs : observatory)
    (sh : shell) (Nprocs : nat) (sched : list nat) (fr : list R) :
  freqs obs = Some fr -> shNfreqs sh <> length fr ->
  make_visibilities obs sh Nprocs sched = Raised AssertionError.
Proof.
  intros Hfr Hne. unfold make_visibilities, Nfreqs. rewrite Hfr.
  destruct (shNfreqs sh =? length fr)%nat eqn:E; [|reflexivity].
  apply Nat.eqb_eq in E. contradiction.
Qed.

(** X22: with matching frequency counts, a shell whose pixel count is
    not [12 Nside^2] for any [Nside] makes [make_visibilities] raise
    [ValueError], whatever the worker count and before any worker
    starts. *)
Lemma make_visibilities_invalid_npix `{Healpix} (obs : observatory)
    (sh : shell) (Nprocs : nat) (sched : list nat) (fr : list R) :
  freqs obs = Some fr -> shNfreqs sh = length fr ->
  (forall Nside, shNpix sh <> 12 * Nside * Nside)%nat ->
  make_visibilities obs sh Nprocs sched = Raised ValueError.
Proof.
  intros Hfr Heq Hpix. unfold make_visibilities, Nfreqs. rewrite Hfr, Heq.
  rewrite Nat.eqb_refl. cbn [negb].
  unfold npix2nside.
  destruct (12 * Nat.sqrt (shNpix sh / 12) * Nat.sqrt (shNpix sh / 12)
            =? shNpix sh)%nat eqn:E; [|reflexivity].
  apply Nat.eqb_eq in E. exfalso. apply (Hpix (Nat.sqrt (shNpix sh / 12))).
  symmetry. exact E.
Qed.

(** C7, what the code does when the field of view is unset and all else
    is in order: the frequency count and the pixel count pass their
    checks, every worker dies in [calc_azza] with its [AttributeError],
    nothing reaches the queue, and [make_visibilities] raises nothing: it
    blocks for ever in [vis_array.get]. *)
Theorem make_visibilities_fov_unset_blocks `{Healpix} (obs : observatory)
    (sh : shell) (Nprocs : nat) (sched : list nat) (fr : list R)
    (Nside : nat) (times : list R) (centers : list (R * R)) :
  fov obs = None ->
  freqs obs = Some fr -> shNfreqs sh = length fr ->
  npix2nside (shNpix sh) = Ok Nside -> shNpix sh <> 0%nat ->
  pointing obs = Some (times, centers) ->
  (1 <= Nprocs)%nat ->
  (forall c, calc_azza obs Nside c = Raise AttributeError) /\
  make_visibilities obs sh Nprocs sched = Blocked.
Proof.
  intros Hfov Hfr Hlen Hns Hpix Hpt Hp. split.
  - intros c. unfold calc_azza. rewrite Hfov. reflexivity.
  - unfold make_visibilities, Nfreqs. rewrite Hfr, Hlen, Nat.eqb_refl, Hns.
    cbn [negb]. destruct (shNpix sh =? 0)%nat eqn:E;
      [apply Nat.eqb_eq in E; contradiction|].
    rewrite Hpt. cbv zeta. rewrite !array_split_sections by lia.
    rewrite workers_entries_dead by (left; exact Hfov). reflexivity.
Qed.

Lemma make_visibilities_fov_unset_blocks_witness :
  @make_visibilities one_pixel example_obs_no_fov example_shell 1 [] = Blocked.
Proof.
  apply (@make_visibilities_fov_unset_blocks one_pixel example_obs_no_fov
           example_shell 1 [] [1e8; 1.3e8] 2
           [2451545; 2451545.5] [(0, 0); (180, -30)]);
    try reflexivity; try discriminate; lia.
Defined.

(** ** The rows of the result *)

(** [set_pointings] stores one pointing centre per time. *)
Lemma set_pointings_lengths `{Astropy} (obs : observatory) (time_arr : list R) :
  exists centers,
    pointing (set_pointings obs time_arr) = Some (time_arr, centers) /\
    length time_arr = length centers.
Proof.
  eexists. split; [reflexivity|]. rewrite length_map. reflexivity.
Qed.














(** ** The reduction over the pixels *)








Lemma beam_val_length (b : analyticbeam) (az za : list R) (fq : option R) :
  length az = length za -> length (beam_val b az za fq) = length az.
Proof.
  intros Hlen. destruct b; simpl; rewrite length_map; auto.
Qed.









(** * Further properties of the module

    ** [jy2Tstr] *)

Lemma jy2Tstr_closed_form (f bm : R) :
  f <> 0 -> bm <> 0 ->
  jy2Tstr f bm = 1e-23 * (c_ms * 100) ^ 2 / (2 * 1.380658e-16) / (f ^ 2 * bm).
Proof.
  intros Hf Hb. unfold jy2Tstr. field. repeat split; try assumption; lra.
Qed.

Lemma jy2Tstr_constant_pos : 0 < 1e-23 * (c_ms * 100) ^ 2 / (2 * 1.380658e-16).
Proof.
  unfold c_ms. apply Rdiv_lt_0_compat; [|lra].
  apply Rmult_lt_0_compat; [lra|]. apply pow_lt. lra.
Qed.

(** X1: the conversion factor is strictly positive at every nonzero
    frequency for a positive reference area. *)
Theorem jy2Tstr_positive (f bm : R) :
  f <> 0 -> 0 < bm -> 0 < jy2Tstr f bm.
Proof.
  intros Hf Hb. rewrite jy2Tstr_closed_form by lra.
  apply Rdiv_lt_0_compat; [apply jy2Tstr_constant_pos|].
  apply Rmult_lt_0_compat; [|exact Hb].
  assert (0 < f * f) by nra. simpl. nra.
Qed.

Lemma jy2Tstr_positive_witness : 0 < jy2Tstr 1e8 1.
Proof. apply jy2Tstr_positive; lra. Defined.

(** X2: for a positive reference area the conversion factor strictly
    decreases as the (positive) frequency grows. *)
Theorem jy2Tstr_decreasing (f1 f2 bm : R) :
  0 < f1 < f2 -> 0 < bm -> jy2Tstr f2 bm < jy2Tstr f1 bm.
Proof.
  intros [H1 H2] Hb. rewrite !jy2Tstr_closed_form by lra.
  unfold Rdiv. apply Rmult_lt_compat_l; [apply jy2Tstr_constant_pos|].
  apply Rinv_lt_contravar.
  - assert (0 < f1 ^ 2 * bm) by (apply Rmult_lt_0_compat; [simpl; nra | lra]).
    assert (0 < f2 ^ 2 * bm) by (apply Rmult_lt_0_compat; [simpl; nra | lra]).
    nra.
  - apply Rmult_lt_compat_r; [exact Hb|]. simpl. nra.
Qed.

Lemma jy2Tstr_decreasing_witness : jy2Tstr 1.3e8 1 < jy2Tstr 1e8 1.
Proof. apply jy2Tstr_decreasing; lra. Defined.

(** X3: the conversion factor falls with the square of the frequency and
    inversely with the reference area: at [k] times the frequency and
    [a] times the area it is [1 / (k^2 a)] of what it was. *)
Theorem jy2Tstr_scaling (f bm k a : R) :
  f <> 0 -> bm <> 0 -> k <> 0 -> a <> 0 ->
  jy2Tstr (k * f) (a * bm) = jy2Tstr f bm / (k ^ 2 * a).
Proof.
  intros Hf Hb Hk Ha. unfold jy2Tstr. field. repeat split; try assumption; lra.
Qed.

Lemma jy2Tstr_scaling_witness : jy2Tstr (2 * 1e8) (3 * 1) = jy2Tstr 1e8 1 / (2 ^ 2 * 3).
Proof. apply jy2Tstr_scaling; lra. Defined.

(** ** The beam *)

(** X4: [analyticbeam.__init__] returns a uniform beam exactly for the
    type "uniform" (a sigma is then ignored), a Gaussian beam exactly for
    the type "gaussian" with a sigma, which it stores in radians; it
    raises [KeyError] exactly for "gaussian" without a sigma and
    [NotImplementedError] exactly for every other type name. *)
Theorem analyticbeam_init_outcomes (beam_type : string) (sigma : option R) :
  match analyticbeam_init beam_type sigma with
  | Ok Uniform => beam_type = "uniform"%string
  | Ok (Gaussian sg) =>
      beam_type = "gaussian"%string /\
      exists s, sigma = Some s /\ sg = s * PI / 180
  | Raise e =>
      (e = KeyError /\ beam_type = "gaussian"%string /\ sigma = None) \/
      (e = NotImplementedError /\ beam_type <> "uniform"%string /\
       beam_type <> "gaussian"%string)
  end.
Proof.
  unfold analyticbeam_init.
  destruct (String.eqb beam_type "uniform") eqn:Eu.
  - apply String.eqb_eq in Eu. exact Eu.
  - apply String.eqb_neq in Eu.
    destruct (String.eqb beam_type "gaussian") eqn:Eg.
    + apply String.eqb_eq in Eg. destruct sigma as [s|].
      * split; [exact Eg|]. exists s. split; reflexivity.
      * left. repeat split. exact Eg.
    + apply String.eqb_neq in Eg. right. repeat split; assumption.
Qed.

(** X5: a beam that [analyticbeam.__init__] built, with a sigma other
    than zero if it has one, answers arrays of angles of one length with
    one value per angle, and every value lies in (0, 1]. *)
Theorem beam_val_range (beam_type : string) (sigma : option R)
    (b : analyticbeam) (az za : list R) (freq_Hz : option R) (k : nat) :
  analyticbeam_init beam_type sigma = Ok b -> sigma <> Some 0 ->
  length az = length za -> (k < length az)%nat ->
  length (beam_val b az za freq_Hz) = length az /\
  0 < nth k (beam_val b az za freq_Hz) 0 <= 1.
Proof.
  intros Hinit Hs Hlen Hk. split; [apply beam_val_length; exact Hlen|].
  pose proof (analyticbeam_init_outcomes beam_type sigma) as Ho.
  rewrite Hinit in Ho. destruct b as [|sg]; simpl.
  - rewrite (nth_map_lt _ az k 0) by exact Hk. lra.
  - destruct Ho as [_ [s [Hsig ->]]].
    rewrite (nth_map_lt _ za k 0) by lia.
    assert (Hs0 : s <> 0) by (intros ->; apply Hs; exact Hsig).
    pose proof (radians_sigma_nonzero s Hs0) as Hsg.
    set (z := nth k za 0). split; [apply exp_pos|].
    assert (Hle : exp (- z ^ 2 / (2 * (s * PI / 180) ^ 2)) <= exp 0);
      [|rewrite exp_0 in Hle; exact Hle].
    destruct (Req_dec z 0) as [Hz|Hz].
    + right. f_equal. rewrite Hz. unfold Rdiv. ring.
    + left. apply exp_increasing.
      assert (Hpos : 0 < 2 * (s * PI / 180) ^ 2).
      { assert (0 < (s * PI / 180) * (s * PI / 180)) by nra. simpl. nra. }
      assert (Hz2 : 0 < z ^ 2) by (simpl; nra).
      unfold Rdiv. rewrite <- Ropp_mult_distr_l.
      apply Ropp_lt_gt_0_contravar. apply Rmult_lt_0_compat; [exact Hz2|].
      apply Rinv_0_lt_compat. exact Hpos.
Qed.

Lemma beam_val_range_witness :
  length (beam_val (Gaussian (10 * PI / 180)) [0; 1] [0; 0.5] None) = 2%nat /\
  0 < nth 1 (beam_val (Gaussian (10 * PI / 180)) [0; 1] [0; 0.5] None) 0 <= 1.
Proof.
  apply (beam_val_range "gaussian" (Some 10) (Gaussian (10 * PI / 180))
           [0; 1] [0; 0.5] None 1 eq_refl).
  - intros H. injection H as H. lra.
  - reflexivity.
  - simpl. lia.
Defined.

(** ** The baseline *)

Lemma zip_with_minus_swap (a b : list R) :
  zip_with Rminus b a = map Ropp (zip_with Rminus a b).
Proof.
  revert b; induction a as [|x a IH]; intros [|y b]; simpl; try reflexivity.
  f_equal; [ring | apply IH].
Qed.

(** X6: two antenna positions of three components each make a baseline,
    whose vector is their componentwise difference; with the antennas
    exchanged the vector is the negated one. *)
Theorem baseline_init_antisymmetric (ant1_enu ant2_enu : list R) :
  length ant1_enu = 3%nat -> length ant2_enu = 3%nat ->
  exists bl bl',
    baseline_init ant1_enu ant2_enu = Ok bl /\
    baseline_init ant2_enu ant1_enu = Ok bl' /\
    enu bl = zip_with Rminus ant1_enu ant2_enu /\
    enu bl' = map Ropp (enu bl).
Proof.
  intros H1 H2. unfold baseline_init.
  rewrite !np_subtract_same_length by lia.
  rewrite !length_zip_with_same by lia. rewrite H1, H2. cbn [Nat.eqb].
  eexists _, _. repeat split. cbn [enu]. apply zip_with_minus_swap.
Qed.

Lemma baseline_init_antisymmetric_witness :
  exists bl bl',
    baseline_init [0; 0; 0] [0; 14.6; 0] = Ok bl /\
    baseline_init [0; 14.6; 0] [0; 0; 0] = Ok bl' /\
    enu bl = zip_with Rminus [0; 0; 0] [0; 14.6; 0] /\
    enu bl' = map Ropp (enu bl).
Proof.
  apply (baseline_init_antisymmetric [0; 0; 0] [0; 14.6; 0]); reflexivity.
Defined.

(** X7: antenna positions of one length other than three fail the
    assertion of [baseline.__init__]. *)
Theorem baseline_init_wrong_size (ant1_enu ant2_enu : list R) :
  length ant1_enu = length ant2_enu -> length ant1_enu <> 3%nat ->
  baseline_init ant1_enu ant2_enu = Raise AssertionError.
Proof.
  intros Heq Hne. unfold baseline_init.
  rewrite np_subtract_same_length by exact Heq.
  rewrite length_zip_with_same by exact Heq.
  destruct (length ant1_enu =? 3)%nat eqn:E; [|reflexivity].
  apply Nat.eqb_eq in E. contradiction.
Qed.

Lemma baseline_init_wrong_size_witness :
  baseline_init [0; 0] [1; 2] = Raise AssertionError.
Proof. apply baseline_init_wrong_size; simpl; [reflexivity | lia]. Defined.

(** X8: at a nonzero frequency [get_uvw] is the baseline vector times
    [f / c]: the baseline in wavelengths grows linearly with the
    frequency, and it is what [make_fringe] uses as [uvw]. *)
Theorem get_uvw_linear (bl : baseline) (f : R) :
  f <> 0 ->
  get_uvw bl f = map (fun e => e * f / c_ms) (enu bl) /\
  get_uvw bl f
  = map (fun row => nth 0 row 0)
        (outer (enu bl) (map (fun f => 1 / (c_ms / f)) [f])).
Proof.
  intros Hf. unfold get_uvw, outer. split.
  - apply map_ext. intros e. unfold c_ms. field.
    repeat split; first [exact Hf | lra].
  - rewrite map_map. apply map_ext. intros e.
    cbn [map nth]. unfold Rdiv. ring.
Qed.

Lemma get_uvw_linear_witness :
  get_uvw example_baseline 1e8
  = map (fun e => e * 1e8 / c_ms) (enu example_baseline).
Proof. apply (get_uvw_linear example_baseline 1e8). lra. Defined.

(** ** More on the fringe *)

(** X9: every element of a fringe has modulus one: the fringe turns the
    phase of a pixel and never its weight. *)
Theorem make_fringe_unit_modulus (az za freq : list R) (e0 e1 e2 : R)
    (k l : nat) :
  length az = length za -> (k < length az)%nat -> (l < length freq)%nat ->
  Re (nth l (nth k (make_fringe az za freq [e0; e1; e2]) []) C0) ^ 2
  + Im (nth l (nth k (make_fringe az za freq [e0; e1; e2]) []) C0) ^ 2 = 1.
Proof.
  intros Hlen Hk Hl. rewrite make_fringe_nth by assumption. cbv zeta.
  cbn [Re Im]. rewrite Rplus_comm. rewrite <- !Rsqr_pow2. apply sin2_cos2.
Qed.

Lemma make_fringe_unit_modulus_witness :
  Re (nth 0 (nth 0 (make_fringe [1] [2] [1e8] [0; -14.6; 0]) []) C0) ^ 2
  + Im (nth 0 (nth 0 (make_fringe [1] [2] [1e8] [0; -14.6; 0]) []) C0) ^ 2 = 1.
Proof.
  apply (make_fringe_unit_modulus [1] [2] [1e8] 0 (-14.6) 0 0 0);
    simpl; (reflexivity || lia).
Defined.

(** X10: the fringe of the negated baseline vector is the complex
    conjugate of the fringe, element by element. *)
Theorem make_fringe_conjugate (az za freq : list R) (e0 e1 e2 : R) :
  length az = length za ->
  make_fringe az za freq [- e0; - e1; - e2]
  = map (map Cconj) (make_fringe az za freq [e0; e1; e2]).
Proof.
  intros Hlen. apply (nth_ext _ _ [] []).
  - rewrite length_map, !make_fringe_length by exact Hlen. reflexivity.
  - intros k Hk. rewrite make_fringe_length in Hk by exact Hlen.
    rewrite (nth_map_lt _ _ k [])
      by (rewrite make_fringe_length by exact Hlen; exact Hk).
    apply (nth_ext _ _ C0 C0).
    + rewrite length_map, !make_fringe_row_length by assumption. reflexivity.
    + intros l Hl. rewrite make_fringe_row_length in Hl by assumption.
      rewrite (nth_map_lt _ _ l C0)
        by (rewrite make_fringe_row_length by assumption; exact Hl).
      rewrite !make_fringe_nth by assumption. cbv zeta. unfold Cconj. cbn [Re Im].
      match goal with
      | |- {| Re := cos ?a; Im := sin ?a |}
           = {| Re := cos ?b; Im := - sin ?b |} =>
          replace a with (- b) by ring
      end.
      rewrite cos_neg, sin_neg. reflexivity.
Qed.

Lemma make_fringe_conjugate_witness :
  make_fringe [1] [2] [1e8] [- 0; - -14.6; - 0]
  = map (map Cconj) (make_fringe [1] [2] [1e8] [0; -14.6; 0]).
Proof. apply (make_fringe_conjugate [1] [2] [1e8] 0 (-14.6) 0). reflexivity. Defined.






(** ** More on [calc_azza] *)

Lemma cvec_ang2vec (center : R * R) :
  cvec center = ang2vec (fst center) (snd center).
Proof. reflexivity. Qed.

Lemma cvec_unit (center : R * R) : dot3 (cvec center) (cvec center) = 1.
Proof.
  rewrite cvec_ang2vec. unfold ang2vec, dot3.
  set (t := PI / 2 - radians (snd center)). set (p := radians (fst center)).
  pose proof (sin2_cos2 p) as Hp. pose proof (sin2_cos2 t) as Ht.
  unfold Rsqr in Hp, Ht.
  replace (sin t * cos p * (sin t * cos p) + sin t * sin p * (sin t * sin p)
           + cos t * cos t)
    with (sin t * sin t * (sin p * sin p + cos p * cos p) + cos t * cos t)
    by ring.
  rewrite Hp. lra.
Qed.

Lemma calc_azza_za_nth `{Healpix} (obs : observatory) (Nside : nat)
    (center : R * R) (za_arr az_arr : list R) (pix : list nat) (k : nat) :
  calc_azza obs Nside center = Ok (za_arr, az_arr, pix) ->
  (k < length pix)%nat ->
  nth k za_arr 0 = acos (dot3 (pix2vec Nside (nth k pix 0%nat)) (cvec center)).
Proof.
  unfold calc_azza, azza, cvec.
  destruct (fov obs) as [f|]; [|discriminate].
  destruct (local_frame center) as [[cv xv] yv]. cbn [fst snd].
  intros Heq Hk. injection Heq as Hza _ Hpix. subst za_arr.
  rewrite Hpix in *.
  rewrite (nth_map_lt _ _ k 0) by (rewrite !length_map; exact Hk).
  rewrite (nth_map_lt _ _ k (0, 0, 0)) by (rewrite length_map; exact Hk).
  rewrite (nth_map_lt _ _ k 0%nat) by exact Hk.
  reflexivity.
Qed.

(** X13: [calc_azza] raises [AttributeError] exactly when the field of
    view is unset; otherwise it selects the pixels of the disc of radius
    half the field of view about the pointing direction and returns one
    zenith angle and one azimuth per selected pixel. *)
Theorem calc_azza_outcome `{Healpix} (obs : observatory) (Nside : nat)
    (center : R * R) :
  match calc_azza obs Nside center with
  | Raise e => e = AttributeError /\ fov obs = None
  | Ok (za_arr, az_arr, pix) =>
      exists fov_deg,
        fov obs = Some fov_deg /\
        pix = query_disc Nside (cvec center) (radians fov_deg / 2) /\
        length za_arr = length pix /\ length az_arr = length pix
  end.
Proof.
  unfold calc_azza. destruct (fov obs) as [fv|]; [|split; reflexivity].
  destruct (azza fv Nside center) as [[za az] pix] eqn:Hazza.
  exists fv. split; [reflexivity|].
  destruct (azza_lengths fv Nside center za az pix Hazza) as [Hza Haz].
  split; [|split; assumption].
  unfold azza in Hazza. rewrite cvec_ang2vec.
  change (local_frame center)
    with (let cv := ang2vec (fst center) (snd center) in
          (cv, xvec center, yvec center)) in Hazza.
  cbv zeta in Hazza. injection Hazza as _ _ Hpix. rewrite <- Hpix.
  f_equal. unfold radians. field.
Qed.

Lemma np_mod_range (a b : R) : 0 < b -> 0 <= np_mod a b < b.
Proof.
  intros Hb. unfold np_mod. destruct (base_Int_part (a / b)) as [Hle Hgt].
  set (n := IZR (Int_part (a / b))) in *.
  assert (Ha : a = b * (a / b)) by (field; lra).
  split.
  - assert (b * n <= b * (a / b)) by (apply Rmult_le_compat_l; lra). lra.
  - assert (b * (a / b - 1) < b * n) by (apply Rmult_lt_compat_l; lra). lra.
Qed.

(** X14: for a pointing centre off the poles (declination strictly
    between -90 and 90 degrees, where the divisor of [xvec] is not zero),
    every azimuth that [calc_azza] returns lies in [[0, 2 pi)]. *)
Theorem calc_azza_azimuth_range `{Healpix} (obs : observatory) (Nside : nat)
    (center : R * R) (za_arr az_arr : list R) (pix : list nat) (k : nat) :
  -90 < snd center < 90 ->
  calc_azza obs Nside center = Ok (za_arr, az_arr, pix) ->
  (k < length pix)%nat ->
  xvec_divisor center <> 0 /\
  0 <= nth k az_arr 0 < 2 * PI.
Proof.
  intros Hdec Heq Hk.
  split; [pose proof (xvec_divisor_pos center Hdec); lra|].
  rewrite (calc_azza_az_nth obs Nside center za_arr az_arr pix k Heq Hk).
  unfold azimuth. apply np_mod_range. pose proof PI_RGT_0. lra.
Qed.

Lemma calc_azza_example :
  exists za_arr az_arr,
    @calc_azza one_pixel example_obs 2 (0, 0) = Ok (za_arr, az_arr, [12%nat]).
Proof.
  unfold calc_azza, azza. cbn [fov example_obs].
  destruct (local_frame (0, 0)) as [[cv xv] yv]. eexists _, _. reflexivity.
Qed.

Lemma calc_azza_azimuth_range_witness :
  exists za_arr az_arr,
    @calc_azza one_pixel example_obs 2 (0, 0) = Ok (za_arr, az_arr, [12%nat]) /\
    0 <= nth 0 az_arr 0 < 2 * PI.
Proof.
  destruct calc_azza_example as [za [az Heq]]. exists za, az.
  split; [exact Heq|].
  apply (@calc_azza_azimuth_range one_pixel example_obs 2 (0, 0) za az
           [12%nat] 0).
  - simpl. lra.
  - exact Heq.
  - simpl. lia.
Defined.

Lemma dot3_cauchy_schwarz (u v : vec3) :
  dot3 u u = 1 -> dot3 v v = 1 -> -1 <= dot3 u v <= 1.
Proof.
  destruct u as [[u0 u1] u2], v as [[v0 v1] v2]. unfold dot3. intros Hu Hv.
  assert (Hl : (u0 * v0 + u1 * v1 + u2 * v2) * (u0 * v0 + u1 * v1 + u2 * v2)
               <= 1).
  { assert (Hid : (u0 * u0 + u1 * u1 + u2 * u2) * (v0 * v0 + v1 * v1 + v2 * v2)
                  - (u0 * v0 + u1 * v1 + u2 * v2) * (u0 * v0 + u1 * v1 + u2 * v2)
                  = (u1 * v2 - u2 * v1) * (u1 * v2 - u2 * v1)
                    + (u2 * v0 - u0 * v2) * (u2 * v0 - u0 * v2)
                    + (u0 * v1 - u1 * v0) * (u0 * v1 - u1 * v0)) by ring.
    rewrite Hu, Hv in Hid.
    pose proof (Rle_0_sqr (u1 * v2 - u2 * v1)) as H1.
    pose proof (Rle_0_sqr (u2 * v0 - u0 * v2)) as H2.
    pose proof (Rle_0_sqr (u0 * v1 - u1 * v0)) as H3.
    unfold Rsqr in H1, H2, H3. lra. }
  split; nra.
Qed.

(** X15: for a selected pixel of unit direction [d], the zenith angle
    that [calc_azza] returns lies in [[0, pi]] and its cosine is the
    scalar product of [d] with the pointing direction: it is the angle
    between the two, and it is 0 for a pixel in the pointing direction. *)
Theorem calc_azza_zenith_angle `{Healpix} (obs : observatory) (Nside : nat)
    (center : R * R) (za_arr az_arr : list R) (pix : list nat) (k : nat) :
  calc_azza obs Nside center = Ok (za_arr, az_arr, pix) ->
  (k < length pix)%nat ->
  dot3 (pix2vec Nside (nth k pix 0%nat)) (pix2vec Nside (nth k pix 0%nat)) = 1 ->
  0 <= nth k za_arr 0 <= PI /\
  cos (nth k za_arr 0) = dot3 (pix2vec Nside (nth k pix 0%nat)) (cvec center) /\
  (pix2vec Nside (nth k pix 0%nat) = cvec center -> nth k za_arr 0 = 0).
Proof.
  intros Heq Hk Hd.
  rewrite (calc_azza_za_nth obs Nside center za_arr az_arr pix k Heq Hk).
  split; [apply acos_bound|]. split.
  - apply cos_acos. apply dot3_cauchy_schwarz; [exact Hd | apply cvec_unit].
  - intros ->. rewrite cvec_unit. apply acos_1.
Qed.

Lemma one_pixel_unit : dot3 (sqrt 8 / 3, 0, 1 / 3) (sqrt 8 / 3, 0, 1 / 3) = 1.
Proof.
  unfold dot3. pose proof (sqrt_sqrt 8 ltac:(lra)) as Hs.
  replace (sqrt 8 / 3 * (sqrt 8 / 3)) with (sqrt 8 * sqrt 8 / 9) by field.
  rewrite Hs. field.
Qed.

Lemma calc_azza_zenith_angle_witness :
  exists za_arr az_arr,
    @calc_azza one_pixel example_obs 2 (0, 0) = Ok (za_arr, az_arr, [12%nat]) /\
    0 <= nth 0 za_arr 0 <= PI /\
    cos (nth 0 za_arr 0) = dot3 (sqrt 8 / 3, 0, 1 / 3) (cvec (0, 0)).
Proof.
  destruct calc_azza_example as [za [az Heq]]. exists za, az.
  split; [exact Heq|].
  destruct (@calc_azza_zenith_angle one_pixel example_obs 2 (0, 0) za az
              [12%nat] 0 Heq ltac:(simpl; lia) one_pixel_unit) as [Hr [Hc _]].
  split; [exact Hr | exact Hc].
Defined.

Lemma arctan2_east (x : R) : 0 < x -> arctan2 x 0 = PI / 2.
Proof.
  intros Hx. unfold arctan2.
  destruct (Rlt_dec 0 0) as [H|_]; [lra|].
  destruct (Rlt_dec 0 x) as [_|H]; [reflexivity | contradiction].
Qed.

Lemma arctan2_west (x : R) : x < 0 -> arctan2 x 0 = - PI / 2.
Proof.
  intros Hx. unfold arctan2.
  destruct (Rlt_dec 0 0) as [H|_]; [lra|].
  destruct (Rlt_dec 0 x) as [H|_]; [lra|].
  destruct (Rlt_dec x 0) as [_|H]; [reflexivity | contradiction].
Qed.

Lemma arctan2_south (y : R) : y < 0 -> arctan2 0 y = PI.
Proof.
  intros Hy. unfold arctan2.
  destruct (Rlt_dec 0 y) as [H|_]; [lra|].
  destruct (Rlt_dec y 0) as [_|H]; [|contradiction].
  destruct (Rle_dec 0 0) as [_|H]; [|lra].
  unfold Rdiv. rewrite Rmult_0_l, atan_0. ring.
Qed.

Lemma np_mod_period (b : R) : 0 < b -> np_mod b b = 0.
Proof.
  intros Hb. unfold np_mod.
  replace (b / b) with 1 by (field; lra).
  destruct (base_Int_part 1) as [Hle Hgt].
  assert (Hn : Int_part 1 = 1%Z).
  { assert (0 < Int_part 1)%Z by (apply lt_IZR; lra).
    assert (Int_part 1 <= 1)%Z by (apply le_IZR; lra).
    lia. }
  rewrite Hn. ring.
Qed.

(** X16: seen from the pointing centre, [calc_azza] gives the azimuth
    [3 pi / 2] to a pixel due east ([d.y = 0], [d.x > 0]), 0 to a pixel
    due south ([d.x = 0], [d.y < 0]) and [pi / 2] to a pixel due west. *)
Theorem calc_azza_cardinal_directions `{Healpix} (obs : observatory)
    (Nside : nat) (center : R * R) (za_arr az_arr : list R)
    (pix : list nat) (k : nat) :
  calc_azza obs Nside center = Ok (za_arr, az_arr, pix) ->
  (k < length pix)%nat ->
  let sdotx := dot3 (pix2vec Nside (nth k pix 0%nat)) (xvec center) in
  let sdoty := dot3 (pix2vec Nside (nth k pix 0%nat)) (yvec center) in
  (sdoty = 0 -> 0 < sdotx -> nth k az_arr 0 = 3 * PI / 2) /\
  (sdotx = 0 -> sdoty < 0 -> nth k az_arr 0 = 0) /\
  (sdoty = 0 -> sdotx < 0 -> nth k az_arr 0 = PI / 2).
Proof.
  intros Heq Hk sdotx sdoty.
  rewrite (calc_azza_az_nth obs Nside center za_arr az_arr pix k Heq Hk).
  fold sdotx sdoty. unfold azimuth. pose proof PI_RGT_0 as Hpi.
  repeat split.
  - intros -> Hx. rewrite arctan2_east by exact Hx.
    replace (PI / 2 + PI) with (3 * PI / 2) by field.
    apply np_mod_small; lra.
  - intros -> Hy. rewrite arctan2_south by exact Hy.
    replace (PI + PI) with (2 * PI) by ring. apply np_mod_period. lra.
  - intros -> Hx. rewrite arctan2_west by exact Hx.
    replace (- PI / 2 + PI) with (PI / 2) by field.
    apply np_mod_small; lra.
Qed.

Lemma calc_azza_cardinal_directions_witness :
  exists za_arr az_arr,
    @calc_azza one_pixel_east example_obs 2 (0, 0)
    = Ok (za_arr, az_arr, [12%nat]) /\
    nth 0 az_arr 0 = 3 * PI / 2.
Proof.
  assert (Hex : exists za_arr az_arr,
             @calc_azza one_pixel_east example_obs 2 (0, 0)
             = Ok (za_arr, az_arr, [12%nat])).
  { unfold calc_azza, azza. cbn [fov example_obs].
    destruct (local_frame (0, 0)) as [[cv xv] yv]. eexists _, _. reflexivity. }
  destruct Hex as [za [az Heq]]. exists za, az. split; [exact Heq|].
  apply (proj1 (@calc_azza_cardinal_directions one_pixel_east example_obs 2
                  (0, 0) za az [12%nat] 0 Heq ltac:(simpl; lia))).
  - unfold yvec. rewrite local_frame_origin. simpl. ring.
  - unfold xvec. rewrite local_frame_origin. simpl. lra.
Defined.

(** ** [get_observed_region] *)

(** X17: [get_observed_region] raises [AttributeError] exactly when no
    pointings were set, [AssertionError] exactly when pointings are set
    and the field of view is not; otherwise it returns one list of pixels
    per pointing centre, the disc about the centre of radius
    [2 sqrt 2 radians(fov)], which is [4 sqrt 2] times the radius of the
    disc that [calc_azza] selects. *)
Theorem get_observed_region_outcome `{Healpix} (obs : observatory)
    (Nside : nat) :
  match get_observed_region obs Nside with
  | Raise e =>
      (e = AttributeError /\ pointing obs = None) \/
      (e = AssertionError /\ fov obs = None /\ pointing obs <> None)
  | Ok pixels =>
      exists times centers fov_deg,
        pointing obs = Some (times, centers) /\ fov obs = Some fov_deg /\
        length pixels = length centers /\
        forall t, (t < length centers)%nat ->
          nth t pixels []
          = query_disc Nside (cvec (nth t centers (0, 0)))
              (4 * sqrt 2 * (radians fov_deg / 2))
  end.
Proof.
  unfold get_observed_region.
  destruct (pointing obs) as [[times centers]|]; [|left; split; reflexivity].
  destruct (fov obs) as [fv|];
    [|right; repeat split; discriminate].
  exists times, centers, fv. repeat split; [apply length_map|].
  intros t Ht. rewrite (nth_map_lt _ centers t (0, 0)) by exact Ht.
  cbv zeta. rewrite cvec_ang2vec. f_equal. field.
Qed.

(** ** The controller: splitting, draining, failing *)

(** X18: the drain loop of [make_visibilities] takes every entry of a
    queue that holds one, in the order of the queue; on an empty queue
    its first [get] blocks. *)
Theorem drain_outcome {A} (q : list A) :
  drain q = match q with [] => None | _ :: _ => Some q end.
Proof.
  destruct q as [|x q]; [reflexivity|]. apply drain_nonempty. discriminate.
Qed.

Lemma concat_slices {A} (ary : list A) (d : nat -> nat) (n : nat) :
  (forall i, (i < n)%nat -> (d i <= d (S i))%nat) ->
  (d 0%nat <= d n)%nat /\
  concat (map (fun i => slice ary (d i) (d (S i))) (seq 0 n))
  = slice ary (d 0%nat) (d n).
Proof.
  induction n as [|n IH]; intros Hd.
  - split; [lia|]. unfold slice. rewrite Nat.sub_diag. reflexivity.
  - destruct IH as [Hle IH]; [intros i Hi; apply Hd; lia|].
    pose proof (Hd n ltac:(lia)) as Hn. split; [lia|].
    rewrite seq_S, map_app, concat_app, IH. simpl. rewrite app_nil_r.
    apply slice_app; assumption.
Qed.

(** X19: the split of the time axis among [Nsections >= 1] workers gives
    [Nsections] sections that, one after the other, are the time axis
    again: every time is in one section, in order; the first
    [Ntotal mod Nsections] sections have one element more than the
    others. *)
Theorem array_split_covers {A} (ary : list A) (Nsections : nat) :
  (1 <= Nsections)%nat ->
  exists sections,
    array_split ary Nsections = Ok sections /\
    length sections = Nsections /\
    concat sections = ary /\
    forall i, (i < Nsections)%nat ->
      length (nth i sections [])
      = (length ary / Nsections
         + (if (i <? length ary mod Nsections)%nat then 1 else 0))%nat.
Proof.
  intros Hn. eexists. split; [apply array_split_sections; lia|].
  split; [rewrite length_map, length_seq; reflexivity|]. split.
  - destruct (concat_slices ary (div_point (length ary) Nsections) Nsections)
      as [_ Heq]; [intros i _; apply div_point_mono|].
    rewrite Heq, div_point_0, div_point_last by lia. apply slice_full.
  - intros i Hi.
    rewrite (nth_map_seq
               (fun i => slice ary (div_point (length ary) Nsections i)
                           (div_point (length ary) Nsections (S i))))
      by exact Hi.
    rewrite length_slice
      by (apply div_point_mono || (apply div_point_le; lia)).
    unfold div_point.
    set (q := (length ary / Nsections)%nat).
    set (e := (length ary mod Nsections)%nat).
    destruct (i <? e)%nat eqn:E;
      [apply Nat.ltb_lt in E | apply Nat.ltb_ge in E]; nia.
Qed.

Lemma array_split_covers_witness :
  exists sections,
    array_split [0; 1; 2; 3; 4]%nat 2 = Ok sections /\
    length sections = 2%nat /\
    concat sections = [0; 1; 2; 3; 4]%nat /\
    forall i, (i < 2)%nat ->
      length (nth i sections [])
      = (length [0; 1; 2; 3; 4]%nat / 2
         + (if (i <? length [0; 1; 2; 3; 4]%nat mod 2)%nat then 1 else 0))%nat.
Proof. apply (array_split_covers [0; 1; 2; 3; 4]%nat 2). lia. Defined.

(** X20: with a frequency count and a pixel count that pass their
    checks and pointings set, a worker count of zero makes
    [make_visibilities] raise [ValueError], from the split of the time
    axis, before any worker starts. *)
Theorem make_visibilities_no_workers `{Healpix} (obs : observatory)
    (sh : shell) (sched : list nat) (fr : list R) (Nside : nat)
    (times : list R) (centers : list (R * R)) :
  freqs obs = Some fr -> shNfreqs sh = length fr ->
  npix2nside (shNpix sh) = Ok Nside -> shNpix sh <> 0%nat ->
  pointing obs = Some (times, centers) ->
  make_visibilities obs sh 0 sched = Raised ValueError.
Proof.
  intros Hfr Hlen Hns Hpix Hpt.
  unfold make_visibilities, Nfreqs. rewrite Hfr, Hlen, Nat.eqb_refl, Hns.
  cbn [negb]. destruct (shNpix sh =? 0)%nat eqn:E;
    [apply Nat.eqb_eq in E; contradiction|].
  rewrite Hpt. reflexivity.
Qed.

Lemma make_visibilities_no_workers_witness :
  @make_visibilities one_pixel example_obs example_shell 0 [] = Raised ValueError.
Proof.
  apply (@make_visibilities_no_workers one_pixel example_obs example_shell []
           [1e8; 1.3e8] 2 [2451545; 2451545.5] [(0, 0); (180, -30)]);
    try reflexivity. discriminate.
Defined.

Lemma make_visibilities_frequency_mismatch_witness :
  @make_visibilities one_pixel example_obs example_shell_3_channels 1 []
  = Raised AssertionError.
Proof.
  apply (@make_visibilities_frequency_mismatch one_pixel example_obs
           example_shell_3_channels 1 [] [1e8; 1.3e8]);
    [reflexivity | simpl; lia].
Defined.

Lemma make_visibilities_invalid_npix_witness :
  @make_visibilities one_pixel example_obs example_shell_47_pixels 1 []
  = Raised ValueError.
Proof.
  apply (@make_visibilities_invalid_npix one_pixel example_obs
           example_shell_47_pixels 1 [] [1e8; 1.3e8]);
    [reflexivity | reflexivity | simpl; intros Nside; lia].
Defined.

(** X23: [make_visibilities] raises [AttributeError] for an observatory
    built without frequencies, and, when the frequency and pixel counts
    pass their checks, for an observatory whose pointings were never
    set. *)
Theorem make_visibilities_unset_attributes `{Healpix} (obs : observatory)
    (sh : shell) (Nprocs : nat) (sched : list nat) :
  (freqs obs = None ->
   make_visibilities obs sh Nprocs sched = Raised AttributeError) /\
  (forall fr Nside,
      freqs obs = Some fr -> shNfreqs sh = length fr ->
      npix2nside (shNpix sh) = Ok Nside -> shNpix sh <> 0%nat ->
      pointing obs = None ->
      make_visibilities obs sh Nprocs sched = Raised AttributeError).
Proof.
  split.
  - intros Hfr. unfold make_visibilities, Nfreqs. rewrite Hfr. reflexivity.
  - intros fr Nside Hfr Hlen Hns Hpix Hpt.
    unfold make_visibilities, Nfreqs. rewrite Hfr, Hlen, Nat.eqb_refl, Hns.
    cbn [negb]. destruct (shNpix sh =? 0)%nat eqn:E;
      [apply Nat.eqb_eq in E; contradiction|].
    rewrite Hpt. reflexivity.
Qed.

Lemma make_visibilities_unset_attributes_witness :
  @make_visibilities one_pixel example_obs_no_pointings example_shell 1 []
  = Raised AttributeError.
Proof.
  apply (proj2 (@make_visibilities_unset_attributes one_pixel
                  example_obs_no_pointings example_shell 1 [])
           [1e8; 1.3e8] 2%nat);
    try reflexivity. discriminate.
Defined.

(** X24: with everything else in order and no beam set, every worker
    dies where it reads [self.beam], nothing reaches the queue, and
    [make_visibilities] raises nothing: it blocks in [vis_array.get]. *)
Theorem make_visibilities_beam_unset_blocks `{Healpix} (obs : observatory)
    (sh : shell) (Nprocs : nat) (sched : list nat) (fr : list R)
    (Nside : nat) (times : list R) (centers : list (R * R)) :
  beam obs = None ->
  freqs obs = Some fr -> shNfreqs sh = length fr ->
  npix2nside (shNpix sh) = Ok Nside -> shNpix sh <> 0%nat ->
  pointing obs = Some (times, centers) ->
  (1 <= Nprocs)%nat ->
  make_visibilities obs sh Nprocs sched = Blocked.
Proof.
  intros Hb Hfr Hlen Hns Hpix Hpt Hp.
  unfold make_visibilities, Nfreqs. rewrite Hfr, Hlen, Nat.eqb_refl, Hns.
  cbn [negb]. destruct (shNpix sh =? 0)%nat eqn:E;
    [apply Nat.eqb_eq in E; contradiction|].
  rewrite Hpt. cbv zeta. rewrite !array_split_sections by lia.
  rewrite workers_entries_dead by (right; exact Hb). reflexivity.
Qed.

Lemma make_visibilities_beam_unset_blocks_witness :
  @make_visibilities one_pixel example_obs_no_beam example_shell 2 [0; 1]%nat
  = Blocked.
Proof.
  apply (@make_visibilities_beam_unset_blocks one_pixel example_obs_no_beam
           example_shell 2 [0; 1]%nat [1e8; 1.3e8] 2
           [2451545; 2451545.5] [(0, 0); (180, -30)]);
    try reflexivity; try discriminate; lia.
Defined.

Lemma slice_nil {A} (a b : nat) : slice (@nil A) a b = [].
Proof. unfold slice. rewrite skipn_nil, firstn_nil. reflexivity. Qed.

(** X25: with everything in order and an empty time array, no worker
    has a time to work on, nothing reaches the queue, and
    [make_visibilities] blocks in [vis_array.get] instead of returning
    no rows. *)
Theorem make_visibilities_no_times_blocks `{Healpix} (obs : observatory)
    (sh : shell) (Nprocs : nat) (sched : list nat) (fr : list R)
    (Nside : nat) (times : list R) :
  freqs obs = Some fr -> shNfreqs sh = length fr ->
  npix2nside (shNpix sh) = Ok Nside -> shNpix sh <> 0%nat ->
  pointing obs = Some (times, []) ->
  (1 <= Nprocs)%nat ->
  make_visibilities obs sh Nprocs sched = Blocked.
Proof.
  intros Hfr Hlen Hns Hpix Hpt Hp.
  unfold make_visibilities, Nfreqs. rewrite Hfr, Hlen, Nat.eqb_refl, Hns.
  cbn [negb]. destruct (shNpix sh =? 0)%nat eqn:E;
    [apply Nat.eqb_eq in E; contradiction|].
  rewrite Hpt. cbv zeta. rewrite !array_split_sections by lia.
  rewrite queue_of_nothing; [reflexivity|].
  apply concat_all_nil. intros x Hx. rewrite map_map in Hx.
  apply in_map_iff in Hx. destruct Hx as [pi [<- Hpi]]. apply in_seq in Hpi.
  rewrite (nth_map_seq
             (fun i => slice (@nil (R * R)) (div_point (length (@nil (R * R))) Nprocs i)
                         (div_point (length (@nil (R * R))) Nprocs (S i))))
    by lia.
  rewrite slice_nil. reflexivity.
Qed.

Lemma make_visibilities_no_times_blocks_witness :
  @make_visibilities one_pixel example_obs_no_times example_shell 1 [] = Blocked.
Proof.
  apply (@make_visibilities_no_times_blocks one_pixel example_obs_no_times
           example_shell 1 [] [1e8; 1.3e8] 2 []);
    try reflexivity; try discriminate; lia.
Defined.

(** ** The values of the result *)



























